(** * Z: a shallow embedding of the interpreter of [z.py]

    The development follows the layout of the source file: the syntax
    classes built by [ZVisitor], the evaluator [run] with its inner
    function [evaluate], the built-in functions [zget], [zprint], [znot]
    and [zadd], and the registry walk of [ZVisitor.visit_program].

    The parser (arpeggio) is outside the model: a program is the list of
    [Function] objects that the visitor hands to [visit_program]. *)

From Stdlib Require Import ZArith String Ascii List DecimalString.
From stdpp Require Import base option strings gmap.

Set Warnings "-register-all".
Local Open Scope string_scope.
Local Open Scope Z_scope.

(** ** The host language

    Values of the interpreted language are host (Python) values.  Integers
    are unbounded ([Z]) and strings are [string]; the host's floating-point
    numbers and its two conversion functions [int()] and [float()] are kept
    abstract: a [Host] supplies them. *)

Class Host := {
  float : Type;
  (** [x + y] on two floats *)
  float_add : float → float → float;
  (** [x < y] on two floats *)
  float_lt : float → float → bool;
  (** implicit conversion of an [int] operand of a mixed sum; [None] is the
      host's [OverflowError] *)
  float_of_int : Z → option float;
  (** [i < x] and [x < i] for an [int] and a [float] (the host compares the
      exact values) *)
  int_lt_float : Z → float → bool;
  float_lt_int : float → Z → bool;
  (** truth value of a float: it is not zero *)
  float_truth : float → bool;
  (** [str(x)] *)
  float_str : float → string;
  (** [float(s)] and [int(s)] on a line of input; [None] is [ValueError] *)
  float_parse : string → option float;
  int_parse : string → option Z
}.

Section Interpreter.
Context `{H : Host}.

(** Runtime values: [None], [bool], [int], [float] and [str]. *)
Inductive value : Type :=
| VNone
| VBool (b : bool)
| VInt (z : Z)
| VFloat (f : float)
| VStr (s : string).

(** The host's truth test, as used by [if return_value:] and
    [if not evaluate(...)]. *)
Definition truthy (v : value) : bool :=
  match v with
  | VNone => false
  | VBool b => b
  | VInt z => negb (Z.eqb z 0)
  | VFloat f => float_truth f
  | VStr s => negb (String.eqb s "")
  end.

(** [str(v)], the text [print(v, end="")] writes. *)
Definition str (v : value) : string :=
  match v with
  | VNone => "None"
  | VBool true => "True"
  | VBool false => "False"
  | VInt z => NilZero.string_of_int (Z.to_int z)
  | VFloat f => float_str f
  | VStr s => s
  end.

(** Host exceptions that the interpreter does not catch. *)
Inductive exn : Type :=
| TypeError
| IndexError
| AttributeError
| EOFError
| OverflowError.

(** How a computation fails: through [err] (the message is shown and the
    process exits with status 1), with an uncaught host exception, or with
    the model's recursion budget used up. *)
Inductive failure : Type :=
| Exit (msg : string)
| Raise (e : exn)
| OutOfFuel.

Inductive outcome (A : Type) : Type :=
| Ok (a : A)
| Fail (f : failure).
#[global] Arguments Ok {A} a.
#[global] Arguments Fail {A} f.

(** Computations over a state [S]; the state reached is kept on failure
    too, so that what was written before a failure stays observable. *)
Definition M (S A : Type) : Type := S → outcome A * S.

Definition ret {S A} (a : A) : M S A := λ s, (Ok a, s).

Definition bind {S A B} (m : M S A) (k : A → M S B) : M S B :=
  λ s, match m s with
       | (Ok a, s') => k a s'
       | (Fail f, s') => (Fail f, s')
       end.

(** [err(msg)] *)
Definition err {S A} (msg : string) : M S A := λ s, (Fail (Exit msg), s).

Definition raise {S A} (e : exn) : M S A := λ s, (Fail (Raise e), s).

(** [list(map(f, l))] *)
Definition mapM {S A B} (f : A → M S B) : list A → M S (list B) :=
  fix go l :=
    match l with
    | [] => ret []
    | x :: xs => bind (f x) (λ y, bind (go xs) (λ ys, ret (y :: ys)))
    end.

(** [for x in l: f(x)] *)
Definition forM {S A} (f : A → M S unit) : list A → M S unit :=
  fix go l :=
    match l with
    | [] => ret tt
    | x :: xs => bind (f x) (λ _, go xs)
    end.

(** ** Standard input and output *)

Record world : Type := {
  stdin : list string;   (* the lines [input()] has not read yet *)
  stdout : string        (* the text written by [print] so far *)
}.

Definition write (s : string) : M world unit :=
  λ w, (Ok tt, {| stdin := stdin w; stdout := stdout w +:+ s |}).

(** ** Host arithmetic *)

Inductive number : Type :=
| NInt (z : Z)
| NFloat (f : float).

(** [bool] is a subtype of [int]. *)
Definition as_number (v : value) : option number :=
  match v with
  | VBool b => Some (NInt (if b then 1 else 0))
  | VInt z => Some (NInt z)
  | VFloat f => Some (NFloat f)
  | _ => None
  end.

(** [a + b] *)
Definition py_add (a b : value) : outcome value :=
  match a, b with
  | VStr s, VStr t => Ok (VStr (s +:+ t))
  | _, _ =>
    match as_number a, as_number b with
    | Some (NInt x), Some (NInt y) => Ok (VInt (x + y))
    | Some (NFloat x), Some (NFloat y) => Ok (VFloat (float_add x y))
    | Some (NInt x), Some (NFloat y) =>
      match float_of_int x with
      | Some x' => Ok (VFloat (float_add x' y))
      | None => Fail (Raise OverflowError)
      end
    | Some (NFloat x), Some (NInt y) =>
      match float_of_int y with
      | Some y' => Ok (VFloat (float_add x y'))
      | None => Fail (Raise OverflowError)
      end
    | _, _ => Fail (Raise TypeError)
    end
  end.

(** [a < b] *)
Definition py_lt (a b : value) : outcome value :=
  match a, b with
  | VStr s, VStr t => Ok (VBool (String.ltb s t))
  | _, _ =>
    match as_number a, as_number b with
    | Some (NInt x), Some (NInt y) => Ok (VBool (Z.ltb x y))
    | Some (NFloat x), Some (NFloat y) => Ok (VBool (float_lt x y))
    | Some (NInt x), Some (NFloat y) => Ok (VBool (int_lt_float x y))
    | Some (NFloat x), Some (NInt y) => Ok (VBool (float_lt_int x y))
    | _, _ => Fail (Raise TypeError)
    end
  end.

(** ** Functions in the Z language *)

(** ["." in content] *)
Fixpoint has_dot (content : string) : bool :=
  match content with
  | EmptyString => false
  | String c rest => Ascii.eqb c "." || has_dot rest
  end.

(** [zget]: [input()] takes the next line, or raises [EOFError]. *)
Definition zget (args : list value) : M world value :=
  λ w, match stdin w with
       | [] => (Fail (Raise EOFError), w)
       | content :: rest =>
         (Ok (default (VStr content)
                (if has_dot content
                 then VFloat <$> float_parse content
                 else VInt <$> int_parse content)),
          {| stdin := rest; stdout := stdout w |})
       end.

Definition newline : string := String "010" "".

(** [zprint]: [print()] writes a line end, [print(x, end="")] writes
    [str(x)] alone. *)
Definition zprint (args : list value) : M world value :=
  match args with
  | [] => bind (write newline) (λ _, ret VNone)
  | output :: _ =>
    match output with
    | VBool b => bind (write (if b then "true" else "false")) (λ _, ret VNone)
    | _ => bind (write (str output)) (λ _, ret VNone)
    end
  end.

(** [znot] *)
Definition znot (args : list value) : M world value :=
  match args with
  | [] => err "No arguments provided to function not."
  | a :: _ => ret (VBool (negb (truthy a)))
  end.

(** [zadd]: [args[1]] on a one-element tuple raises [IndexError]. *)
Definition zadd (args : list value) : M world value :=
  match args with
  | [] => err "No arguments provided to function add."
  | a :: rest =>
    match rest with
    | [] => raise IndexError
    | b :: _ => λ w, (py_add a b, w)
    end
  end.

(** ** Classes to store information about a program *)

(** Expressions: a literal ([int], [float] or [str], stored as its value),
    [Identifier], [Comparison] and [FunctionCall].  The [params] of a call
    are [None] or the expressions of an [ArgList]. *)
Inductive expr : Type :=
| Literal (v : value)
| Identifier (name : string)
| Comparison (left right : expr)
| FunctionCall (name : string) (params : option (list expr)).

(** Statements: [Assignment] (its target is the [name] of an [Identifier]),
    [Condition], or an expression. *)
Inductive stmt : Type :=
| Assignment (name : string) (value : expr)
| Condition (condition : expr) (body : list stmt)
| Expression (e : expr).

(** [Function]: [params] is [None] or the names of a [ParamList]. *)
Record Function : Type := {
  name : string;
  params : option (list string);
  statements : list stmt
}.

(** An entry of the [functions] dictionary: a host callable (a built-in)
    or a [Function] object. *)
Inductive callee : Type :=
| Callable (f : list value → M world value)
| User (fn : Function).

(** ** The evaluator *)

(** The variables of one call of [run] that [evaluate] reads and writes,
    together with the input and output of the process. *)
Record frame : Type := {
  local : gmap string value;
  return_value : value;
  io : world
}.

Definition set_local (k : string) (v : value) : M frame unit :=
  λ st, (Ok tt, {| local := <[k := v]> (local st);
                   return_value := return_value st; io := io st |}).

Definition set_return_value (v : value) : M frame unit :=
  λ st, (Ok tt, {| local := local st; return_value := v; io := io st |}).

(** Run a computation on the process's input and output from a frame. *)
Definition on_io {A} (m : M world A) : M frame A :=
  λ st, let (r, w) := m (io st) in
        (r, {| local := local st; return_value := return_value st; io := w |}).

Section Evaluate.
(** [functions] and the recursive call of [run] as [evaluate] sees them. *)
Variable functions : gmap string callee.
Variable run_rec : callee → option (list value) → M world value.

(** [evaluate(statement.params)]: [params] is [None] or an [ArgList], and
    [ev] is [evaluate] on each element. *)
Definition evaluate_params (ev : expr → M frame value)
    (params : option (list expr)) : M frame (option (list value)) :=
  λ st,
    if truthy (return_value st) then (Ok None, st)
    else match params with
         | None => (Ok None, st)
         | Some l => bind (mapM ev l) (λ vs, ret (Some vs)) st
         end.

(** [evaluate] on an expression. *)
Fixpoint evaluate (statement : expr) : M frame value :=
  λ st,
    if truthy (return_value st) then (Ok VNone, st)
    else match statement with
         | Comparison lhs rhs =>
           bind (evaluate lhs) (λ l,
           bind (evaluate rhs) (λ r,
           λ st', (py_lt l r, st'))) st
         | FunctionCall name params =>
           if String.eqb name "return" then
             bind (evaluate_params evaluate params) (λ vs,
               match vs with
               | None => raise TypeError
               | Some [] => raise IndexError
               | Some (v :: _) => bind (set_return_value v) (λ _, ret VNone)
               end) st
           else
             match functions !! name with
             | None => err ("Undefined function " +:+ name) st
             | Some f =>
               bind (evaluate_params evaluate params) (λ vs,
                 on_io (run_rec f vs)) st
             end
         | Identifier name =>
           match local st !! name with
           | Some v => (Ok v, st)
           | None => err ("Undefined variable " +:+ name) st
           end
         | Literal v => (Ok v, st)
         end.

(** [evaluate] on a statement; both callers drop the value it returns. *)
Fixpoint evaluate_stmt (statement : stmt) : M frame unit :=
  λ st,
    if truthy (return_value st) then (Ok tt, st)
    else match statement with
         | Assignment name value =>
           bind (evaluate value) (λ v, set_local name v) st
         | Condition condition body =>
           bind (evaluate condition) (λ c,
             if negb (truthy c) then ret tt
             else forM evaluate_stmt body) st
         | Expression e => bind (evaluate e) (λ _, ret tt) st
         end.

(** The loop over [function.statements] at the end of [run]. *)
Fixpoint run_statements (l : list stmt) : M frame unit :=
  match l with
  | [] => ret tt
  | statement :: rest =>
    bind (evaluate_stmt statement) (λ _ st,
      if truthy (return_value st) then (Ok tt, st)
      else run_statements rest st)
  end.

End Evaluate.

(** The start of [run] for a [Function]: the local variables, starting
    with the parameters. *)
Definition bind_params (function : Function) (args : list value)
    : outcome (gmap string value) :=
  match args with
  | [] => Ok ∅
  | _ :: _ =>
    match params function with
    | None => Fail (Raise AttributeError)
    | Some ps =>
      if negb (Nat.eqb (length args) (length ps))
      then Fail (Exit ("Incorrect number of arguments to function "
                       +:+ name function))
      else Ok (fold_left (λ m nv, <[nv.1 := nv.2]> m) (zip ps args) ∅)
    end
  end.

(** [run(function, functions, args)].  [args] is [None] when the call
    passes no third argument or passes [None].  [fuel] bounds the depth of
    nested calls. *)
Fixpoint run (fuel : nat) (functions : gmap string callee)
    (function : callee) (args : option (list value)) : M world value :=
  match fuel with
  | O => λ w, (Fail OutOfFuel, w)
  | S fuel' =>
    let args := default [] args in
    match function with
    | Callable f => f args
    | User fn =>
      λ w, match bind_params fn args with
           | Ok vars =>
             let st := {| local := vars; return_value := VNone; io := w |} in
             match run_statements functions (run fuel' functions)
                     (statements fn) st with
             | (Ok _, st') => (Ok (return_value st'), io st')
             | (Fail f, st') => (Fail f, io st')
             end
           | Fail f => (Fail f, w)
           end
    end
  end.

(** ** The program registry *)

(** The [functions] dictionary that [main] creates. *)
Definition builtins : gmap string callee :=
  <["add" := Callable zadd]> (<["get" := Callable zget]>
  (<["not" := Callable znot]> (<["print" := Callable zprint]> ∅))).

(** The loop of [visit_program]: the last function named [main], and the
    dictionary with every function stored under its name. *)
Definition visit_loop (functions : gmap string callee) (children : list Function)
    : option Function * gmap string callee :=
  fold_left
    (λ acc fn,
       (if String.eqb (name fn) "main" then Some fn else acc.1,
        <[name fn := User fn]> acc.2))
    children (None, functions).

(** [ZVisitor(functions).visit_program(node, children)] *)
Definition visit_program (fuel : nat) (functions : gmap string callee)
    (children : list Function) : M world value :=
  let (main, functions') := visit_loop functions children in
  match main with
  | None => err "Program needs a main function."
  | Some fn => run fuel functions' (User fn) None
  end.

(** [main()] on a parsed program. *)
Definition main (fuel : nat) (children : list Function) : M world value :=
  visit_program fuel builtins children.

End Interpreter.

(** ** A host for closed programs

    The closed programs below contain no float literal and read no input.
    They are run on a host whose float type is empty and whose [int()]
    reads a decimal numeral. *)

#[global] Instance int_host : Host := {|
  float := Empty_set;
  float_add := λ x _, x;
  float_lt := λ _ _, false;
  float_of_int := λ _, None;
  int_lt_float := λ _ _, false;
  float_lt_int := λ _ _, false;
  float_truth := λ _, false;
  float_str := λ _, "";
  float_parse := λ _, None;
  int_parse := λ s, Z.of_int <$> NilZero.int_of_string s
|}.

(** The process state at start: no input, nothing written. *)
Definition w0 : world := {| stdin := []; stdout := "" |}.

(** ** Vocabulary of the statements below *)

(** The textually last declaration named [k] in a program. *)
Definition last_named `{H : Host} (k : string) (children : list Function)
    : option Function :=
  last (filter (λ fn, name fn = k) children).

(** The names of the declarations of a program. *)
Definition declared `{H : Host} (children : list Function) : gset string :=
  list_to_set (name <$> children).

(** [call f args] is the expression [f(args)]. *)
Definition call `{H : Host} (f : string) (args : list expr) : expr :=
  FunctionCall f (Some args).

(** The frame of a call without arguments at its first statement. *)
Definition frame0 : frame :=
  {| local := ∅; return_value := VNone; io := w0 |}.

(** ** Programs used below *)

Definition fn_main (body : list stmt) : Function :=
  {| name := "main"; params := None; statements := body |}.

(** [function main() { return(0) print("after") }] *)
Definition prog_falsy_return : list Function :=
  [ fn_main [ Expression (call "return" [Literal (VInt 0)]);
              Expression (call "print" [Literal (VStr "after")]) ] ].

(** [function f($n) { print("ran") } function main() { f() }] *)
Definition prog_missing_argument : list Function :=
  [ {| name := "f"; params := Some ["$n"];
       statements := [ Expression (call "print" [Literal (VStr "ran")]) ] |};
    fn_main [ Expression (FunctionCall "f" None) ] ].

(** [function g() { } function main() { g(1) }] *)
Definition prog_surplus_argument : list Function :=
  [ {| name := "g"; params := None; statements := [] |};
    fn_main [ Expression (call "g" [Literal (VInt 1)]) ] ].

(** [function double($n) { return(add($n, $n)) }
     function main() { print(double(1, 2)) }] *)
Definition prog_double : list Function :=
  [ {| name := "double"; params := Some ["$n"];
       statements :=
         [ Expression (call "return"
             [call "add" [Identifier "$n"; Identifier "$n"]]) ] |};
    fn_main [ Expression (call "print"
                [call "double" [Literal (VInt 1); Literal (VInt 2)]]) ] ].

(** [function main() { add(1) }] *)
Definition prog_add_one : list Function :=
  [ fn_main [ Expression (call "add" [Literal (VInt 1)]) ] ].

(** [function main() { return(1) < 2 }] *)
Definition prog_return_compared : list Function :=
  [ fn_main [ Expression (Comparison (call "return" [Literal (VInt 1)])
                                     (Literal (VInt 2))) ] ].

(** [function main() { print(return(5)) }] *)
Definition prog_return_printed : list Function :=
  [ fn_main [ Expression (call "print" [call "return" [Literal (VInt 5)]]) ] ].

(** [function five() { return(5) print("unreached") }
     function main() { five() print("back") }] *)
Definition prog_callee_returns : list Function :=
  [ {| name := "five"; params := None;
       statements := [ Expression (call "return" [Literal (VInt 5)]);
                       Expression (call "print" [Literal (VStr "unreached")]) ] |};
    fn_main [ Expression (FunctionCall "five" None);
              Expression (call "print" [Literal (VStr "back")]) ] ].

(** [function helper() { print("x") }] *)
Definition prog_no_main : list Function :=
  [ {| name := "helper"; params := None;
       statements := [ Expression (call "print" [Literal (VStr "x")]) ] |} ].

(** [function main() { print("old") } function main() { print("new") }] *)
Definition prog_two_mains : list Function :=
  [ fn_main [ Expression (call "print" [Literal (VStr "old")]) ];
    fn_main [ Expression (call "print" [Literal (VStr "new")]) ] ].

(** [function reader() { $x } function main() { $x <- 1 reader() }] *)
Definition prog_scope : list Function :=
  [ {| name := "reader"; params := None;
       statements := [ Expression (Identifier "$x") ] |};
    fn_main [ Assignment "$x" (Literal (VInt 1));
              Expression (FunctionCall "reader" None) ] ].

(** The frame of [main] in [prog_scope] after its assignment. *)
Definition frame_x : frame :=
  {| local := {[ "$x" := VInt 1 ]}; return_value := VNone; io := w0 |}.

(** A frame in which the value 5 is pending. *)
Definition frame_pending : frame :=
  {| local := ∅; return_value := VInt 5; io := w0 |}.

(** ** The syntax tree builder: [ZVisitor.visit_function]

    What the visitor receives as the children of a [function] node: the
    text of the name, the result of [visit_paramlist], and the results of
    [visit_statement] (each a list holding one statement). *)

Section Builder.
Context `{H : Host}.

Inductive child : Type :=
| CText (text : string)
| CParamList (ps : list string)
| CStatement (s : stmt).

(** The [Function] object as the constructor stores it: whatever child
    stands in each place. *)
Record BuiltFunction : Type := {
  built_name : child;
  built_params : option child;
  built_statements : list child
}.

(** [type(c) == ParamList] *)
Definition is_paramlist (c : child) : bool :=
  match c with
  | CParamList _ => true
  | _ => false
  end.

(** [visit_function(node, children)]; [children[0]] on an empty list is the
    host's [IndexError]. *)
Definition visit_function (children : list child) : outcome BuiltFunction :=
  match children with
  | [] => Fail (Raise IndexError)
  | c0 :: rest =>
    if (Nat.ltb 2 (length children))
       && match rest with
          | c1 :: _ => is_paramlist c1
          | [] => false
          end
    then Ok {| built_name := c0; built_params := head rest;
               built_statements := tail rest |}
    else Ok {| built_name := c0; built_params := None;
               built_statements := rest |}
  end.

(** The [Function] that [run] expects, when the object has that shape: a
    text as name, a [ParamList] or [None] as parameters, statements only
    in the body. *)
Definition as_statement (c : child) : option stmt :=
  match c with
  | CStatement s => Some s
  | _ => None
  end.

Fixpoint as_statements (l : list child) : option (list stmt) :=
  match l with
  | [] => Some []
  | c :: rest =>
    match as_statement c, as_statements rest with
    | Some s, Some body => Some (s :: body)
    | _, _ => None
    end
  end.

Definition as_Function (b : BuiltFunction) : option Function :=
  match built_name b with
  | CText n =>
    match as_statements (built_statements b) with
    | Some body =>
      match built_params b with
      | None => Some {| name := n; params := None; statements := body |}
      | Some (CParamList ps) =>
        Some {| name := n; params := Some ps; statements := body |}
      | Some _ => None
      end
    | None => None
    end
  | _ => None
  end.

(** The [Function] built from the children of a [function] node, when
    the visitor's result has the shape [run] expects. *)
Definition built_Function (children : list child) : option Function :=
  match visit_function children with
  | Ok b => as_Function b
  | Fail _ => None
  end.

End Builder.

(** ** Further vocabulary *)

Section Vocabulary.
Context `{H : Host}.

(** [w'] continues [w]: the text written so far is kept, and the input
    left is a tail of the input there was. *)
Definition continues (w w' : world) : Prop :=
  (∃ out, stdout w' = stdout w +:+ out) ∧ (∃ n, stdin w' = drop n (stdin w)).

(** A callable that only appends to the output and only reads from the
    front of the input. *)
Definition io_safe (f : list value → M world value) : Prop :=
  ∀ args w, continues w (f args w).2.

Definition callee_safe (c : callee) : Prop :=
  match c with
  | Callable f => io_safe f
  | User _ => True
  end.

(** The expression contains a call of [return]. *)
Fixpoint has_return (e : expr) : bool :=
  match e with
  | Literal _ => false
  | Identifier _ => false
  | Comparison l r => has_return l || has_return r
  | FunctionCall n ps =>
    String.eqb n "return"
    || match ps with
       | Some l => existsb has_return l
       | None => false
       end
  end.

Fixpoint has_return_stmt (s : stmt) : bool :=
  match s with
  | Assignment _ e => has_return e
  | Condition c body => has_return c || existsb has_return_stmt body
  | Expression e => has_return e
  end.

(** The expression contains a call. *)
Fixpoint has_call (e : expr) : bool :=
  match e with
  | Literal _ => false
  | Identifier _ => false
  | Comparison l r => has_call l || has_call r
  | FunctionCall _ _ => true
  end.

(** A computation that ended, in a result or a failure of the program,
    rather than with the recursion budget of the model used up. *)
Definition finished {A} (r : outcome A) : Prop := r ≠ Fail OutOfFuel.

End Vocabulary.

(** Every run of [m] ends in a state related by [R] to the one it began
    in, whatever the outcome. *)
Definition keeps {S A} (R : S → S → Prop) (m : M S A) : Prop :=
  ∀ s, R s (m s).2.

(** [m'] ends as [m] does wherever [m] ends in a result or in a failure
    that [G] admits. *)
Definition refines {S A} (G : failure → Prop) (m m' : M S A) : Prop :=
  ∀ s r s', m s = (r, s') → (∀ f, r = Fail f → G f) → m' s = (r, s').

(** No run of [m] ends in the failure [bad]. *)
Definition avoids {S A} (bad : failure) (m : M S A) : Prop :=
  ∀ s, (m s).1 ≠ Fail bad.

(** A registry entry that, if built in, never reports [k] as an undefined
    function. *)
Definition quiet `{H : Host} (k : string) (c : callee) : Prop :=
  match c with
  | Callable f =>
    ∀ args, avoids (Exit ("Undefined function " +:+ k)) (f args)
  | User _ => True
  end.

(** ** Further programs *)

(** [function greet($who) { print("hello ") print($who) }] *)
Definition fn_greet : Function :=
  {| name := "greet"; params := Some ["$who"];
     statements := [ Expression (call "print" [Literal (VStr "hello ")]);
                     Expression (call "print" [Identifier "$who"]) ] |}.

(** [function return($v) { print("never") }
     function main() { return(7) print("after") }] *)
Definition prog_return_declared : list Function :=
  [ {| name := "return"; params := Some ["$v"];
       statements := [ Expression (call "print" [Literal (VStr "never")]) ] |};
    fn_main [ Expression (call "return" [Literal (VInt 7)]);
              Expression (call "print" [Literal (VStr "after")]) ] ].

(** [function main() { print("a") $y print("b") }] *)
Definition fn_stops : Function :=
  fn_main [ Expression (call "print" [Literal (VStr "a")]);
            Expression (Identifier "$y");
            Expression (call "print" [Literal (VStr "b")]) ].

(** A process whose input holds the line [abc]. *)
Definition w_abc : world := {| stdin := ["abc"]; stdout := "" |}.

(** * Properties *)

(** ** The built-in functions *)

Section Builtins.
Context `{H : Host}.
Implicit Types (a b v : value) (rest args : list value) (w : world).

Lemma zadd_two a b rest w : zadd (a :: b :: rest) w = (py_add a b, w).
Proof. reflexivity. Qed.

Lemma zadd_none w :
  zadd [] w = (Fail (Exit "No arguments provided to function add."), w).
Proof. reflexivity. Qed.

(** With exactly one argument [zadd] passes its guard, and the host raises
    [IndexError] on [args[1]]. *)
Lemma zadd_one a w : zadd [a] w = (Fail (Raise IndexError), w).
Proof. reflexivity. Qed.

Lemma znot_first a rest w : znot (a :: rest) w = (Ok (VBool (negb (truthy a))), w).
Proof. reflexivity. Qed.

(** A built-in is called with the arguments as they are: [run] checks no
    argument count for a callable. *)
Lemma run_callable fuel functions f args w :
  run (S fuel) functions (Callable f) (Some args) w = f args w.
Proof. reflexivity. Qed.

(** C10: surplus arguments of a built-in are ignored and are no error.
    Whatever follows the arguments it uses, [not] returns the negated
    truth value of its first argument and touches neither input nor
    output; [print] appends the display form of its first argument to the
    output and returns [None]; [add] returns the host sum of its first two
    arguments; and [get], whatever it is given, takes the first line off
    the input and returns it converted (or ends in [EOFError] when there
    is none).  Each call ends exactly as the call with the used arguments
    alone, also when made through [run]. *)
Theorem builtins_ignore_surplus a b rest args w :
  (znot (a :: rest) w = (Ok (VBool (negb (truthy a))), w)
   ∧ znot (a :: rest) w = znot [a] w)
  ∧ (zprint (a :: rest) w
     = (Ok VNone,
        {| stdin := stdin w;
           stdout := stdout w
                     +:+ match a with
                         | VBool true => "true"
                         | VBool false => "false"
                         | _ => str a
                         end |})
     ∧ zprint (a :: rest) w = zprint [a] w)
  ∧ (zadd (a :: b :: rest) w = (py_add a b, w)
     ∧ zadd (a :: b :: rest) w = zadd [a; b] w)
  ∧ (zget args w
     = match stdin w with
       | [] => (Fail (Raise EOFError), w)
       | content :: remaining =>
         (Ok (default (VStr content)
                (if has_dot content
                 then VFloat <$> float_parse content
                 else VInt <$> int_parse content)),
          {| stdin := remaining; stdout := stdout w |})
       end
     ∧ zget args w = zget [] w)
  ∧ (∀ fuel functions,
       run (S fuel) functions (Callable znot) (Some (a :: rest)) w
       = znot [a] w
       ∧ run (S fuel) functions (Callable zprint) (Some (a :: rest)) w
         = zprint [a] w
       ∧ run (S fuel) functions (Callable zadd) (Some (a :: b :: rest)) w
         = zadd [a; b] w
       ∧ run (S fuel) functions (Callable zget) (Some args) w = zget [] w).
Proof.
  repeat split; try reflexivity.
  all: rewrite ?run_callable; destruct a as [|[]| | |]; reflexivity.
Qed.

(** C3 (as amended): [print] without an argument writes a line end;
    with an argument it writes the display form of the first one and no
    line end after it: [true] or [false] for a Boolean, which is not the
    host's text for it, and [str] of the value otherwise. *)
Theorem zprint_writes rest w :
  zprint [] w
  = (Ok VNone, {| stdin := stdin w; stdout := stdout w +:+ newline |})
  ∧ (∀ b : bool,
       zprint (VBool b :: rest) w
       = (Ok VNone, {| stdin := stdin w;
                       stdout := stdout w +:+ (if b then "true" else "false") |})
       ∧ (if b then "true" else "false") ≠ str (VBool b))
  ∧ zprint (VNone :: rest) w
    = (Ok VNone, {| stdin := stdin w; stdout := stdout w +:+ "None" |})
  ∧ (∀ z, zprint (VInt z :: rest) w
          = (Ok VNone, {| stdin := stdin w; stdout := stdout w +:+ str (VInt z) |}))
  ∧ (∀ f, zprint (VFloat f :: rest) w
          = (Ok VNone, {| stdin := stdin w; stdout := stdout w +:+ float_str f |}))
  ∧ (∀ s, zprint (VStr s :: rest) w
          = (Ok VNone, {| stdin := stdin w; stdout := stdout w +:+ s |})).
Proof.
  repeat split; try reflexivity.
  destruct b; discriminate.
Qed.

End Builtins.

(** C3, against the claim as written: [print()] leaves one character on
    the output, the line end. *)
Lemma zprint_no_argument_writes :
  zprint [] w0 = (Ok VNone, {| stdin := []; stdout := newline |})
  ∧ String.length (stdout (zprint [] w0).2) = 1%nat
  ∧ stdout (zprint [] w0).2 ≠ stdout w0.
Proof. split; [reflexivity | split; [reflexivity | discriminate]]. Qed.

(** ** The program registry *)

Section Registry.
Context `{H : Host}.
Implicit Types (functions : gmap string callee) (children : list Function).

Lemma visit_loop_snoc functions children fn :
  visit_loop functions (children ++ [fn])
  = (if String.eqb (name fn) "main" then Some fn
     else (visit_loop functions children).1,
     <[name fn := User fn]> (visit_loop functions children).2).
Proof. unfold visit_loop. rewrite fold_left_app. reflexivity. Qed.

Lemma last_named_snoc k children fn :
  last_named k (children ++ [fn])
  = if decide (name fn = k) then Some fn else last_named k children.
Proof.
  unfold last_named. rewrite filter_app, filter_cons, filter_nil.
  destruct (decide (name fn = k)).
  - apply last_snoc.
  - rewrite app_nil_r. reflexivity.
Qed.

(** The entry point the loop selects is the last declaration named [main]. *)
Lemma visit_loop_main functions children :
  (visit_loop functions children).1 = last_named "main" children.
Proof.
  induction children as [|fn children IH] using rev_ind; [reflexivity|].
  rewrite visit_loop_snoc, last_named_snoc. simpl.
  destruct (String.eqb_spec (name fn) "main"); destruct (decide _);
    congruence.
Qed.

(** Every name maps to its last declaration, or to what the dictionary
    held before when the program declares no function of that name. *)
Lemma visit_loop_lookup functions children k :
  (visit_loop functions children).2 !! k
  = match last_named k children with
    | Some fn => Some (User fn)
    | None => functions !! k
    end.
Proof.
  induction children as [|fn children IH] using rev_ind; [reflexivity|].
  rewrite visit_loop_snoc, last_named_snoc. simpl.
  destruct (decide (name fn = k)) as [->|Hne].
  - apply lookup_insert_eq.
  - rewrite lookup_insert_ne by exact Hne. exact IH.
Qed.

Lemma last_named_Some k children fn :
  last_named k children = Some fn → fn ∈ children ∧ name fn = k.
Proof.
  unfold last_named. intros Hl.
  assert (fn ∈ filter (λ fn, name fn = k) children) as Hin.
  { apply last_Some in Hl as [l' ->]. set_solver. }
  apply list_elem_of_filter in Hin. tauto.
Qed.

Lemma last_named_None k children :
  last_named k children = None ↔ k ∉ name <$> children.
Proof.
  unfold last_named. rewrite last_None. split.
  - intros Hnil [fn [-> Hin]]%list_elem_of_fmap.
    exact (filter_nil_not_elem_of _ _ fn Hnil eq_refl Hin).
  - intros Hk. apply elem_of_nil_inv. intros fn [<- Hin]%list_elem_of_filter.
    apply Hk, list_elem_of_fmap_2, Hin.
Qed.

Lemma last_named_is_Some k children :
  is_Some (last_named k children) ↔ k ∈ name <$> children.
Proof.
  rewrite <- not_eq_None_Some, last_named_None.
  destruct (decide (k ∈ name <$> children)); tauto.
Qed.

Lemma visit_loop_dom functions children :
  dom (visit_loop functions children).2 = dom functions ∪ declared children.
Proof.
  apply set_eq. intros k.
  rewrite elem_of_union, !elem_of_dom, visit_loop_lookup.
  unfold declared. rewrite elem_of_list_to_set, <- last_named_is_Some.
  destruct (last_named k children) as [fn|].
  - split; [right|]; eauto.
  - split; [left; assumption|]. intros [?|[? ?]]; [assumption|discriminate].
Qed.

(** C4: a program that declares no function named [main] fails with the
    missing-entry-point message and the process state untouched, so no
    statement has run; a program that declares one runs the [Function]
    registered under [main], the last declaration of that name, with no
    arguments. *)
Theorem visit_program_entry fuel functions children w :
  (Forall (λ fn, name fn ≠ "main") children →
   visit_program fuel functions children w
   = (Fail (Exit "Program needs a main function."), w))
  ∧ (Exists (λ fn, name fn = "main") children →
     ∃ fn, last_named "main" children = Some fn
           ∧ (visit_loop functions children).2 !! "main" = Some (User fn)
           ∧ visit_program fuel functions children w
             = run fuel (visit_loop functions children).2 (User fn) None w).
Proof.
  unfold visit_program.
  pose proof (visit_loop_main functions children) as Hmain.
  pose proof (visit_loop_lookup functions children "main") as Hreg.
  destruct (visit_loop functions children) as [m functions'].
  simpl in Hmain, Hreg. subst m. split.
  - intros Hno.
    destruct (last_named "main" children) as [fn|] eqn:Hl; [|reflexivity].
    apply last_named_Some in Hl as [Hin Hname].
    rewrite Forall_forall in Hno. destruct (Hno fn Hin Hname).
  - intros [fn [Hin Hname]]%Exists_exists.
    destruct (last_named "main" children) as [m|] eqn:Hl.
    + exists m. auto.
    + apply last_named_None in Hl. destruct Hl.
      rewrite <- Hname. apply list_elem_of_fmap_2, Hin.
Qed.

(** C8 (as amended): the names of the registry that [main] builds are the
    four built-in names together with the declared names; the names bound
    to a [Function] are exactly the declared names, and each is bound to
    the textually last declaration of that name. *)
Theorem registry_names children :
  let registry := (visit_loop builtins children).2 in
  dom registry = {["add"; "get"; "not"; "print"]} ∪ declared children
  ∧ (∀ k, (∃ fn, registry !! k = Some (User fn)) ↔ k ∈ declared children)
  ∧ (∀ k fn, registry !! k = Some (User fn) ↔ last_named k children = Some fn).
Proof.
  assert (∀ k fn, (visit_loop builtins children).2 !! k = Some (User fn)
                  ↔ last_named k children = Some fn) as Hlast.
  { intros k fn. rewrite visit_loop_lookup.
    destruct (last_named k children) as [fn'|].
    - split; congruence.
    - split; [|discriminate]. unfold builtins. intros Hb.
      repeat (apply lookup_insert_Some in Hb as [[_ Hb]|[_ Hb]];
              [discriminate|]).
      rewrite lookup_empty in Hb. discriminate. }
  simpl. split; [|split].
  - rewrite visit_loop_dom. f_equal.
  - intros k. unfold declared.
    rewrite elem_of_list_to_set, <- last_named_is_Some.
    split; intros [fn Hfn]; exists fn; apply Hlast, Hfn.
  - exact Hlast.
Qed.

End Registry.

(** C8, against the claim as written: after the walk of a program whose
    only declaration is [main], the registry also holds [add], which no
    declaration names. *)
Lemma registry_holds_builtins :
  let children := [ {| name := "main"; params := None; statements := [] |} ] in
  let registry := (visit_loop builtins children).2 in
  is_Some (registry !! "add")
  ∧ ("add" ∉ declared children)
  ∧ (dom registry ≠ declared children).
Proof.
  simpl. assert ("add" ∉ declared [ {| name := "main"; params := None;
                                        statements := [] |} ]) as Hno.
  { unfold declared. rewrite elem_of_list_to_set.
    intros Hin%list_elem_of_singleton. discriminate. }
  split; [|split].
  - eexists. reflexivity.
  - exact Hno.
  - intros Heq. apply Hno. rewrite <- Heq. apply elem_of_dom.
    eexists. reflexivity.
Qed.

(** ** The evaluator *)

Section Evaluator.
Context `{H : Host}.
Variable functions : gmap string callee.
Variable run_rec : callee → option (list value) → M world value.
Implicit Types (e : expr) (s : stmt) (st : frame) (v : value).

Local Abbreviation ev := (evaluate functions run_rec).
Local Abbreviation ev_stmt := (evaluate_stmt functions run_rec).

(** Induction on expressions that reaches the arguments of a call. *)
Lemma expr_ind_args (P : expr → Prop) :
  (∀ v, P (Literal v)) →
  (∀ n, P (Identifier n)) →
  (∀ l r, P l → P r → P (Comparison l r)) →
  (∀ n, P (FunctionCall n None)) →
  (∀ n args, Forall P args → P (FunctionCall n (Some args))) →
  ∀ e, P e.
Proof.
  intros HL HI HC HN HA. fix IH 1. intros [v|n|l r|n [args|]].
  - apply HL.
  - apply HI.
  - apply HC; apply IH.
  - apply HA. induction args as [|a args IHargs]; constructor.
    + apply IH.
    + exact IHargs.
  - apply HN.
Qed.

Lemma bind_ok {S A B} (m : M S A) (k : A → M S B) (x x' : S) a :
  m x = (Ok a, x') → bind m k x = k a x'.
Proof. unfold bind. intros ->. reflexivity. Qed.

Lemma bind_fail {S A B} (m : M S A) (k : A → M S B) (x x' : S) f :
  m x = (Fail f, x') → bind m k x = (Fail f, x').
Proof. unfold bind. intros ->. reflexivity. Qed.

(** *** A pending return value *)

Lemma evaluate_pending e st :
  truthy (return_value st) = true → ev e st = (Ok VNone, st).
Proof. intros Hrv. destruct e; simpl; rewrite Hrv; reflexivity. Qed.

Lemma evaluate_stmt_pending s st :
  truthy (return_value st) = true → ev_stmt s st = (Ok tt, st).
Proof. intros Hrv. destruct s; simpl; rewrite Hrv; reflexivity. Qed.

Lemma forM_pending body st :
  truthy (return_value st) = true → forM ev_stmt body st = (Ok tt, st).
Proof.
  intros Hrv. induction body as [|s body IH]; [reflexivity|].
  simpl. rewrite (bind_ok _ _ _ _ _ (evaluate_stmt_pending s st Hrv)).
  exact IH.
Qed.

(** *** Expressions leave the local variables alone *)

Lemma mapM_local (args : list expr) :
  Forall (λ e, ∀ st r st', ev e st = (r, st') → local st' = local st) args →
  ∀ st r st', mapM ev args st = (r, st') → local st' = local st.
Proof.
  induction 1 as [|e args He _ IH]; intros st r st' Hm.
  - injection Hm as _ <-. reflexivity.
  - simpl in Hm. unfold bind at 1 in Hm.
    destruct (ev e st) as [[v|f] st1] eqn:Hev; apply He in Hev.
    + unfold bind at 1 in Hm.
      destruct (mapM ev args st1) as [[vs|f] st2] eqn:Hargs; apply IH in Hargs;
        injection Hm as _ <-; congruence.
    + injection Hm as _ <-. exact Hev.
Qed.

Lemma evaluate_params_local (args : option (list expr)) :
  (∀ l, args = Some l →
        Forall (λ e, ∀ st r st', ev e st = (r, st') → local st' = local st) l) →
  ∀ st r st', evaluate_params ev args st = (r, st') → local st' = local st.
Proof.
  intros Hargs st r st' Hp. unfold evaluate_params in Hp.
  destruct (truthy (return_value st)); [injection Hp as _ <-; reflexivity|].
  destruct args as [l|]; [|injection Hp as _ <-; reflexivity].
  unfold bind in Hp.
  destruct (mapM ev l st) as [[vs|f] st1] eqn:Hm;
    apply (mapM_local l (Hargs l eq_refl)) in Hm;
    injection Hp as _ <-; exact Hm.
Qed.

Lemma evaluate_call_local n (args : option (list expr)) :
  (∀ l, args = Some l →
        Forall (λ e, ∀ st r st', ev e st = (r, st') → local st' = local st) l) →
  ∀ st r st', ev (FunctionCall n args) st = (r, st') → local st' = local st.
Proof.
  intros Hargs st r st' Hev. simpl in Hev.
  destruct (truthy (return_value st)); [injection Hev as _ <-; reflexivity|].
  pose proof (evaluate_params_local args Hargs st) as Hp.
  destruct (String.eqb n "return").
  - unfold bind in Hev.
    destruct (evaluate_params ev args st) as [[vs|f] st1] eqn:Hps;
      specialize (Hp _ _ eq_refl); [|injection Hev as _ <-; exact Hp].
    destruct vs as [[|v vs]|]; injection Hev as _ <-; exact Hp.
  - destruct (functions !! n) as [f|]; [|injection Hev as _ <-; reflexivity].
    unfold bind in Hev.
    destruct (evaluate_params ev args st) as [[vs|f'] st1] eqn:Hps;
      specialize (Hp _ _ eq_refl); [|injection Hev as _ <-; exact Hp].
    unfold on_io in Hev. destruct (run_rec f vs (io st1)) as [r' w'].
    injection Hev as _ <-. exact Hp.
Qed.

(** Neither a call nor a [return] inside an expression changes a binding
    of the frame in which the expression is evaluated. *)
Lemma evaluate_local e :
  ∀ st r st', ev e st = (r, st') → local st' = local st.
Proof.
  induction e as [v|n|l r IHl IHr|n|n args IHargs] using expr_ind_args;
    intros st res st' Hev.
  - simpl in Hev. destruct (truthy (return_value st));
      injection Hev as _ <-; reflexivity.
  - simpl in Hev. destruct (truthy (return_value st));
      [injection Hev as _ <-; reflexivity|].
    destruct (local st !! n); injection Hev as _ <-; reflexivity.
  - simpl in Hev. destruct (truthy (return_value st));
      [injection Hev as _ <-; reflexivity|].
    unfold bind at 1 in Hev.
    destruct (ev l st) as [[vl|f] st1] eqn:Hl; apply IHl in Hl;
      [|injection Hev as _ <-; exact Hl].
    unfold bind in Hev.
    destruct (ev r st1) as [[vr|f] st2] eqn:Hr; apply IHr in Hr;
      injection Hev as _ <-; congruence.
  - apply (evaluate_call_local n None) in Hev; [exact Hev|discriminate].
  - apply (evaluate_call_local n (Some args)) in Hev; [exact Hev|].
    intros l [= <-]. exact IHargs.
Qed.

(** *** The two statement loops *)

Lemma forM_cons (body : list stmt) s st :
  forM ev_stmt (s :: body) st
  = match ev_stmt s st with
    | (Ok _, st') => forM ev_stmt body st'
    | (Fail f, st') => (Fail f, st')
    end.
Proof. reflexivity. Qed.

Lemma run_statements_cons (rest : list stmt) s st :
  run_statements functions run_rec (s :: rest) st
  = match ev_stmt s st with
    | (Ok _, st') =>
      if truthy (return_value st') then (Ok tt, st')
      else run_statements functions run_rec rest st'
    | (Fail f, st') => (Fail f, st')
    end.
Proof. reflexivity. Qed.

Lemma run_statements_app (pre post : list stmt) st st0 :
  run_statements functions run_rec pre st = (Ok tt, st0) →
  truthy (return_value st0) = false →
  run_statements functions run_rec (pre ++ post) st
  = run_statements functions run_rec post st0.
Proof.
  revert st. induction pre as [|s pre IH]; intros st Hpre Hrv.
  - injection Hpre as <-. reflexivity.
  - rewrite <- app_comm_cons, run_statements_cons.
    rewrite run_statements_cons in Hpre.
    destruct (ev_stmt s st) as [[[]|f] st1]; [|discriminate].
    destruct (truthy (return_value st1)) eqn:Hrv1.
    + injection Hpre as <-. congruence.
    + apply IH; assumption.
Qed.

(** *** Single constructs *)

Lemma evaluate_identifier n st :
  truthy (return_value st) = false →
  ev (Identifier n) st
  = match local st !! n with
    | Some v => (Ok v, st)
    | None => (Fail (Exit ("Undefined variable " +:+ n)), st)
    end.
Proof. intros Hrv. simpl. rewrite Hrv. reflexivity. Qed.

Lemma evaluate_return e st v st' :
  truthy (return_value st) = false →
  ev e st = (Ok v, st') →
  ev (call "return" [e]) st
  = (Ok VNone, {| local := local st'; return_value := v; io := io st' |}).
Proof.
  intros Hrv He. unfold call. cbn [evaluate]. rewrite Hrv.
  cbn [String.eqb Ascii.eqb Bool.eqb].
  unfold bind at 1, evaluate_params. rewrite Hrv.
  unfold mapM, bind. rewrite He. reflexivity.
Qed.


(** C6: a [Condition] reached with no truthy return value pending first
    evaluates its test, which changes no local variable.  On a falsy
    result nothing else happens; on a truthy one the body statements are
    evaluated one after the other, each in the frame the one before left:
    the frame of the enclosing function. *)
Theorem condition_semantics c (body : list stmt) st :
  truthy (return_value st) = false →
  ∃ r st1,
    ev c st = (r, st1)
    ∧ local st1 = local st
    ∧ ev_stmt (Condition c body) st
      = match r with
        | Ok v => if truthy v then forM ev_stmt body st1 else (Ok tt, st1)
        | Fail f => (Fail f, st1)
        end
    ∧ forM ev_stmt [] st1 = (Ok tt, st1)
    ∧ (∀ s rest st2,
         forM ev_stmt (s :: rest) st2
         = match ev_stmt s st2 with
           | (Ok _, st3) => forM ev_stmt rest st3
           | (Fail f, st3) => (Fail f, st3)
           end).
Proof.
  intros Hrv. destruct (ev c st) as [r st1] eqn:Hc.
  exists r, st1. split; [reflexivity|].
  split; [exact (evaluate_local c st r st1 Hc)|].
  split; [|split; [reflexivity|intros; apply forM_cons]].
  cbn [evaluate_stmt]. rewrite Hrv. unfold bind at 1. rewrite Hc.
  destruct r as [v|f]; [|reflexivity].
  destruct (truthy v); reflexivity.
Qed.

End Evaluator.

(** ** Invocations *)

Section Invocation.
Context `{H : Host}.
Variable fuel : nat.
Variable functions : gmap string callee.
Implicit Types (e : expr) (s : stmt) (st : frame) (v : value)
  (fn : Function) (args : list value) (w : world).

Local Abbreviation ev := (evaluate functions (run fuel functions)).
Local Abbreviation ev_stmt := (evaluate_stmt functions (run fuel functions)).
Local Abbreviation loop := (run_statements functions (run fuel functions)).

(** *** Parameters *)

Lemma bind_params_no_args fn : bind_params fn [] = Ok ∅.
Proof. reflexivity. Qed.

Lemma bind_params_no_params fn v args :
  params fn = None → bind_params fn (v :: args) = Fail (Raise AttributeError).
Proof. unfold bind_params. intros ->. reflexivity. Qed.

Lemma bind_params_mismatch fn ps v args :
  params fn = Some ps →
  length (v :: args) ≠ length ps →
  bind_params fn (v :: args)
  = Fail (Exit ("Incorrect number of arguments to function " +:+ name fn)).
Proof.
  unfold bind_params. intros -> Hlen.
  apply Nat.eqb_neq in Hlen. rewrite Hlen. reflexivity.
Qed.

Lemma fold_insert_other (ps : list string) args (m : gmap string value) k :
  k ∉ ps →
  fold_left (λ m nv, <[nv.1 := nv.2]> m) (zip ps args) m !! k = m !! k.
Proof.
  revert args m. induction ps as [|p ps IH]; intros [|a args] m Hk;
    try reflexivity.
  apply not_elem_of_cons in Hk as [Hne Hk]. simpl.
  rewrite IH by exact Hk. apply lookup_insert_ne. congruence.
Qed.

Lemma fold_insert_lookup (ps : list string) args (m : gmap string value) i p v :
  NoDup ps → ps !! i = Some p → args !! i = Some v →
  fold_left (λ m nv, <[nv.1 := nv.2]> m) (zip ps args) m !! p = Some v.
Proof.
  revert args m i. induction ps as [|p0 ps IH]; intros [|a args] m i Hnd Hp Ha;
    try discriminate.
  apply NoDup_cons in Hnd as [Hfresh Hnd]. destruct i as [|i]; simpl in *.
  - injection Hp as ->. injection Ha as ->.
    rewrite fold_insert_other by exact Hfresh. apply lookup_insert_eq.
  - eapply IH; eassumption.
Qed.

(** With at least one argument and as many arguments as parameters, the
    new local variables bind each parameter to its argument. *)
Lemma bind_params_match fn ps v args :
  params fn = Some ps →
  length (v :: args) = length ps →
  NoDup ps →
  ∃ vars, bind_params fn (v :: args) = Ok vars
          ∧ (∀ i p a, ps !! i = Some p → (v :: args) !! i = Some a →
                      vars !! p = Some a)
          ∧ dom vars = list_to_set ps.
Proof.
  unfold bind_params. intros -> Hlen Hnd.
  apply Nat.eqb_eq in Hlen. rewrite Hlen. simpl negb. cbv iota.
  eexists. split; [reflexivity|]. split.
  - intros i p a Hp Ha. eapply fold_insert_lookup; eassumption.
  - apply Nat.eqb_eq in Hlen. apply set_eq. intros k.
    rewrite elem_of_dom, elem_of_list_to_set.
    destruct (decide (k ∈ ps)) as [Hin|Hout].
    + apply list_elem_of_lookup in Hin as [i Hi].
      destruct (lookup_lt_is_Some_2 (v :: args) i) as [a Ha].
      { rewrite Hlen. eapply lookup_lt_Some, Hi. }
      rewrite (fold_insert_lookup ps (v :: args) ∅ i k a Hnd Hi Ha).
      split; [intros _; apply list_elem_of_lookup|]; eauto.
    + rewrite fold_insert_other by exact Hout. rewrite lookup_empty.
      split; [intros [? ?]; discriminate|tauto].
Qed.

(** *** Calls *)

Lemma evaluate_call_no_args f callee st :
  truthy (return_value st) = false →
  f ≠ "return" →
  functions !! f = Some callee →
  ev (FunctionCall f None) st = on_io (run fuel functions callee None) st.
Proof.
  intros Hrv Hf Hc. cbn [evaluate]. rewrite Hrv.
  apply String.eqb_neq in Hf. rewrite Hf, Hc.
  unfold bind, evaluate_params. rewrite Hrv. reflexivity.
Qed.

(** What is pending in the caller, and what the caller has bound, is the
    same after a call as before it. *)
Lemma on_io_frame {A} (m : M world A) st :
  return_value (on_io m st).2 = return_value st
  ∧ local (on_io m st).2 = local st.
Proof. unfold on_io. destruct (m (io st)). split; reflexivity. Qed.

Lemma run_statements_break s (rest : list stmt) st0 st :
  ev_stmt s st0 = (Ok tt, st) →
  truthy (return_value st) = true →
  loop (s :: rest) st0 = (Ok tt, st).
Proof. intros Hs Hrv. rewrite run_statements_cons, Hs, Hrv. reflexivity. Qed.

End Invocation.

Section Scopes.
Context `{H : Host}.
Implicit Types (e : expr) (s : stmt) (st : frame) (v : value)
  (fn : Function) (w : world) (functions : gmap string callee).

Lemma run_user fuel functions fn (args : option (list value)) w :
  run (S fuel) functions (User fn) args w
  = match bind_params fn (default [] args) with
    | Ok vars =>
      match run_statements functions (run fuel functions) (statements fn)
              {| local := vars; return_value := VNone; io := w |} with
      | (Ok _, st') => (Ok (return_value st'), io st')
      | (Fail f, st') => (Fail f, io st')
      end
    | Fail f => (Fail f, w)
    end.
Proof. reflexivity. Qed.

(** C7: an [Identifier] evaluated with no truthy return value pending
    yields the value its name has in the local variables of the current
    call of [run], and fails with the undefined-variable message when the
    name has none.  A callee starts from its own variables, so a name it
    reads first is undefined there whatever the caller has bound; and no
    expression, calls included, changes the caller's variables. *)
Theorem identifier_scope fuel functions n st :
  truthy (return_value st) = false →
  evaluate functions (run fuel functions) (Identifier n) st
  = match local st !! n with
    | Some v => (Ok v, st)
    | None => (Fail (Exit ("Undefined variable " +:+ n)), st)
    end
  ∧ (∀ f fn rest,
       f ≠ "return" →
       functions !! f = Some (User fn) →
       statements fn = Expression (Identifier n) :: rest →
       evaluate functions (run (S fuel) functions) (FunctionCall f None) st
       = (Fail (Exit ("Undefined variable " +:+ n)), st))
  ∧ (∀ e r st',
       evaluate functions (run fuel functions) e st = (r, st') →
       local st' = local st).
Proof.
  intros Hrv. split; [apply evaluate_identifier, Hrv|]. split.
  - intros f fn rest Hf Hfn Hbody.
    rewrite (evaluate_call_no_args (S fuel) functions f (User fn) st Hrv Hf Hfn).
    unfold on_io. rewrite run_user. simpl default.
    rewrite bind_params_no_args, Hbody, run_statements_cons.
    cbn [evaluate_stmt]. simpl truthy. cbv iota. unfold bind at 1.
    rewrite evaluate_identifier by reflexivity.
    simpl local. rewrite lookup_empty. simpl. destruct st; reflexivity.
  - intros e r st'. apply evaluate_local.
Qed.

(** C9 (as amended): while a truthy return value is pending, every call
    of [evaluate] that starts returns at once, with [None] and the frame
    as it is: no expression, no statement and no remaining statement of a
    [Condition] body has an effect.  When a statement of the function
    body ends without a failure and leaves a truthy value pending, the
    loop over the body stops there and the invocation returns that value.
    A call leaves what is pending in the caller, and the caller's
    variables, as they were, so the caller goes on with its next statement
    whatever the callee returned.  An evaluation already in progress
    around an expression [e] that left a truthy value pending is not cut
    short: an enclosing [return(e)] replaces the pending value by the
    value of [e], an enclosing comparison compares with [None] and ends
    in [TypeError], an enclosing call is still made, an enclosing
    assignment still binds, and a [Condition] with test [e] runs nothing
    of its body. *)
Theorem pending_return_skips fuel functions st :
  truthy (return_value st) = true →
  (∀ e, evaluate functions (run fuel functions) e st = (Ok VNone, st))
  ∧ (∀ s, evaluate_stmt functions (run fuel functions) s st = (Ok tt, st))
  ∧ (∀ body,
       forM (evaluate_stmt functions (run fuel functions)) body st = (Ok tt, st))
  ∧ (∀ fn args w vars (pre post : list stmt) s st0,
       statements fn = (pre ++ s :: post)%list →
       bind_params fn (default [] args) = Ok vars →
       run_statements functions (run fuel functions) pre
         {| local := vars; return_value := VNone; io := w |} = (Ok tt, st0) →
       truthy (return_value st0) = false →
       evaluate_stmt functions (run fuel functions) s st0 = (Ok tt, st) →
       run (S fuel) functions (User fn) args w = (Ok (return_value st), io st))
  ∧ (∀ f callee rest caller v w',
       f ≠ "return" →
       functions !! f = Some callee →
       truthy (return_value caller) = false →
       run fuel functions callee None (io caller) = (Ok v, w') →
       run_statements functions (run fuel functions)
         (Expression (FunctionCall f None) :: rest) caller
       = run_statements functions (run fuel functions) rest
           {| local := local caller; return_value := return_value caller;
              io := w' |})
  ∧ (∀ callee vs caller,
       return_value (on_io (run fuel functions callee vs) caller).2
       = return_value caller
       ∧ local (on_io (run fuel functions callee vs) caller).2 = local caller)
  ∧ (∀ st0 e v,
       truthy (return_value st0) = false →
       evaluate functions (run fuel functions) e st0 = (Ok v, st) →
       evaluate functions (run fuel functions) (call "return" [e]) st0
       = (Ok VNone, {| local := local st; return_value := v; io := io st |})
       ∧ (∀ r, evaluate functions (run fuel functions) (Comparison e r) st0
               = (Fail (Raise TypeError), st))
       ∧ (∀ f callee,
            f ≠ "return" →
            functions !! f = Some callee →
            evaluate functions (run fuel functions) (call f [e]) st0
            = on_io (run fuel functions callee (Some [v])) st)
       ∧ (∀ n, evaluate_stmt functions (run fuel functions)
                 (Assignment n e) st0
               = (Ok tt, {| local := <[n := v]> (local st);
                            return_value := return_value st; io := io st |}))
       ∧ (∀ body, evaluate_stmt functions (run fuel functions)
                    (Condition e body) st0
                  = (Ok tt, st))).
Proof.
  intros Hrv. split; [intros e; apply evaluate_pending, Hrv|].
  split; [intros s; apply evaluate_stmt_pending, Hrv|].
  split; [intros body; apply forM_pending, Hrv|].
  split; [|split; [|split; [intros callee vs caller; apply on_io_frame|]]].
  - intros fn args w vars pre post s st0 Hbody Hvars Hpre Hrv0 Hs.
    rewrite run_user, Hvars, Hbody.
    rewrite (run_statements_app _ _ pre (s :: post) _ st0 Hpre Hrv0).
    rewrite (run_statements_break _ _ s post st0 st Hs Hrv). reflexivity.
  - intros f callee rest caller v w' Hf Hc Hrvc Hrun.
    rewrite run_statements_cons. cbn [evaluate_stmt]. rewrite Hrvc.
    unfold bind at 1.
    rewrite (evaluate_call_no_args fuel functions f callee caller Hrvc Hf Hc).
    unfold on_io. rewrite Hrun. simpl. rewrite Hrvc. reflexivity.
  - intros st0 e v Hrv0 He.
    split; [exact (evaluate_return _ _ e st0 v st Hrv0 He)|].
    split; [|split; [|split]].
    + intros r. cbn [evaluate]. rewrite Hrv0. unfold bind at 1. rewrite He.
      unfold bind. rewrite (evaluate_pending _ _ r st Hrv).
      destruct v as [|[]| | |]; reflexivity.
    + intros f callee Hf Hc. unfold call. cbn [evaluate]. rewrite Hrv0.
      apply String.eqb_neq in Hf. rewrite Hf, Hc.
      unfold bind at 1, evaluate_params. rewrite Hrv0.
      unfold mapM, bind. rewrite He. reflexivity.
    + intros n. cbn [evaluate_stmt]. rewrite Hrv0. unfold bind. rewrite He.
      reflexivity.
    + intros body. cbn [evaluate_stmt]. rewrite Hrv0. unfold bind at 1.
      rewrite He. destruct (negb (truthy v)); [reflexivity|].
      apply forM_pending, Hrv.
Qed.

End Scopes.

(** ** Closed programs *)

(** The scenarios of the specification. *)
Example scenario_small :
  main 2 [ fn_main [ Assignment "$x" (Literal (VInt 5));
                     Condition (Comparison (Identifier "$x") (Literal (VInt 10)))
                       [ Expression (call "print" [Literal (VStr "small")]) ] ] ]
    w0
  = (Ok VNone, {| stdin := []; stdout := "small" |}).
Proof. reflexivity. Qed.

Example scenario_undefined_variable :
  main 2 [ fn_main [ Expression (call "print" [Identifier "$y"]) ] ] w0
  = (Fail (Exit "Undefined variable $y"), w0).
Proof. reflexivity. Qed.

Example scenario_not :
  main 2 [ fn_main [ Expression (call "print"
             [call "not" [Comparison (Literal (VInt 5)) (Literal (VInt 3))]]) ] ]
    w0
  = (Ok VNone, {| stdin := []; stdout := "true" |}).
Proof. reflexivity. Qed.

(** C1: the argument count is compared with the parameter count only when
    the call has at least one argument and the function has a parameter
    list.  A call without arguments of a function with a parameter runs
    its body with nothing bound; a call with an argument of a function
    without parameters ends in the host's [AttributeError]; the count
    mismatch of [double(1, 2)] is the one reported. *)
Theorem arity_check_skipped :
  main 3 prog_missing_argument w0
  = (Ok VNone, {| stdin := []; stdout := "ran" |})
  ∧ main 3 prog_surplus_argument w0 = (Fail (Raise AttributeError), w0)
  ∧ main 3 prog_double w0
    = (Fail (Exit "Incorrect number of arguments to function double"), w0).
Proof. split; [|split]; reflexivity. Qed.

(** C5: [add] with one argument is past the guard of [zadd], which tests
    for no argument only, and ends in the host's [IndexError]; with no
    argument it ends through [err], and with two it returns the sum. *)
Theorem add_one_argument :
  main 2 prog_add_one w0 = (Fail (Raise IndexError), w0)
  ∧ zadd [VInt 1] w0 = (Fail (Raise IndexError), w0)
  ∧ zadd [] w0 = (Fail (Exit "No arguments provided to function add."), w0)
  ∧ zadd [VInt 1; VInt 2] w0 = (Ok (VInt 3), w0).
Proof. repeat split. Qed.

(** Zero, the empty string and [false] are falsy, as is [None]. *)
Example falsy_values :
  truthy (VInt 0) = false ∧ truthy (VStr "") = false
  ∧ truthy (VBool false) = false ∧ truthy VNone = false.
Proof. repeat split. Qed.

(** After [return("")] and after [return(5 < 3)] the body goes on too. *)
Example falsy_return_string_and_bool :
  main 2 [ fn_main [ Expression (call "return" [Literal (VStr "")]);
                     Expression (call "print" [Literal (VStr "after")]) ] ] w0
  = (Ok (VStr ""), {| stdin := []; stdout := "after" |})
  ∧ main 2 [ fn_main [ Expression (call "return"
                         [Comparison (Literal (VInt 5)) (Literal (VInt 3))]);
                       Expression (call "print" [Literal (VStr "after")]) ] ] w0
    = (Ok (VBool false), {| stdin := []; stdout := "after" |}).
Proof. split; reflexivity. Qed.

(** The statements after [return(0)] run: the program writes [after]. *)
Example falsy_return_program :
  main 2 prog_falsy_return w0
  = (Ok (VInt 0), {| stdin := []; stdout := "after" |}).
Proof. reflexivity. Qed.


Lemma visit_program_entry_witness :
  (Forall (λ fn, name fn ≠ "main") prog_no_main
   ∧ visit_program 2 builtins prog_no_main w0
     = (Fail (Exit "Program needs a main function."), w0))
  ∧ (Exists (λ fn, name fn = "main") prog_two_mains
     ∧ ∃ fn, last_named "main" prog_two_mains = Some fn
             ∧ (visit_loop builtins prog_two_mains).2 !! "main" = Some (User fn)
             ∧ visit_program 2 builtins prog_two_mains w0
               = run 2 (visit_loop builtins prog_two_mains).2 (User fn) None w0).
Proof.
  assert (Forall (λ fn, name fn ≠ "main") prog_no_main) as Hno
    by (repeat constructor; discriminate).
  assert (Exists (λ fn, name fn = "main") prog_two_mains) as Hyes
    by (constructor; reflexivity).
  split; (split; [assumption|]).
  - exact (proj1 (visit_program_entry 2 builtins prog_no_main w0) Hno).
  - exact (proj2 (visit_program_entry 2 builtins prog_two_mains w0) Hyes).
Defined.

(** With two declarations of [main] the later one runs. *)
Example last_main_runs :
  main 2 prog_two_mains w0 = (Ok VNone, {| stdin := []; stdout := "new" |}).
Proof. reflexivity. Qed.

(** A falsy test, numeric or Boolean, keeps the body from running; a
    truthy one runs it in the frame of the function. *)
Example condition_zero :
  evaluate_stmt builtins (run 1 builtins)
    (Condition (Literal (VInt 0))
       [ Expression (call "print" [Literal (VStr "x")]) ]) frame0
  = (Ok tt, frame0).
Proof. reflexivity. Qed.

Example condition_false :
  evaluate_stmt builtins (run 1 builtins)
    (Condition (Comparison (Literal (VInt 5)) (Literal (VInt 3)))
       [ Expression (call "print" [Literal (VStr "x")]) ]) frame0
  = (Ok tt, frame0).
Proof. reflexivity. Qed.

Example condition_true :
  evaluate_stmt builtins (run 1 builtins)
    (Condition (Literal (VInt 1))
       [ Assignment "$x" (Literal (VInt 5));
         Expression (call "print" [Identifier "$x"]) ]) frame0
  = (Ok tt, {| local := {[ "$x" := VInt 5 ]}; return_value := VNone;
               io := {| stdin := []; stdout := "5" |} |}).
Proof. reflexivity. Qed.

Lemma condition_semantics_witness :
  truthy (return_value frame0) = false
  ∧ ∃ r st1,
      evaluate builtins (run 1 builtins) (Literal (VInt 0)) frame0 = (r, st1)
      ∧ local st1 = local frame0
      ∧ evaluate_stmt builtins (run 1 builtins)
          (Condition (Literal (VInt 0))
             [ Expression (call "print" [Literal (VStr "x")]) ]) frame0
        = match r with
          | Ok v =>
            if truthy v
            then forM (evaluate_stmt builtins (run 1 builtins))
                   [ Expression (call "print" [Literal (VStr "x")]) ] st1
            else (Ok tt, st1)
          | Fail f => (Fail f, st1)
          end
      ∧ forM (evaluate_stmt builtins (run 1 builtins)) [] st1 = (Ok tt, st1)
      ∧ (∀ s rest st2,
           forM (evaluate_stmt builtins (run 1 builtins)) (s :: rest) st2
           = match evaluate_stmt builtins (run 1 builtins) s st2 with
             | (Ok _, st3) =>
               forM (evaluate_stmt builtins (run 1 builtins)) rest st3
             | (Fail f, st3) => (Fail f, st3)
             end).
Proof.
  split; [reflexivity|].
  exact (condition_semantics builtins (run 1 builtins) (Literal (VInt 0))
           [ Expression (call "print" [Literal (VStr "x")]) ] frame0 eq_refl).
Defined.

(** The callee does not see the caller's [$x]. *)
Example callee_scope_program :
  main 3 prog_scope w0 = (Fail (Exit "Undefined variable $x"), w0).
Proof. reflexivity. Qed.

Lemma identifier_scope_witness :
  truthy (return_value frame_x) = false
  ∧ evaluate (visit_loop builtins prog_scope).2
      (run 1 (visit_loop builtins prog_scope).2) (Identifier "$x") frame_x
    = (Ok (VInt 1), frame_x)
  ∧ evaluate (visit_loop builtins prog_scope).2
      (run 2 (visit_loop builtins prog_scope).2) (FunctionCall "reader" None)
      frame_x
    = (Fail (Exit "Undefined variable $x"), frame_x).
Proof.
  pose proof (identifier_scope 1 (visit_loop builtins prog_scope).2 "$x"
                frame_x eq_refl) as [Hhere [Hcallee _]].
  split; [reflexivity|]. split; [exact Hhere|].
  refine (Hcallee "reader" _ [] _ eq_refl eq_refl); discriminate.
Defined.

(** C9, against the claim as written: a [return] inside a larger
    expression sets a truthy pending value, and the evaluation in progress
    goes on.  In [return(1) < 2] the comparison then compares [None] with
    [None] and the invocation ends in the host's [TypeError] instead of
    returning 1; in [print(return(5))] the call of [print] still takes
    place and writes [None]. *)
Lemma return_inside_expression :
  evaluate builtins (run 1 builtins) (call "return" [Literal (VInt 1)]) frame0
  = (Ok VNone, {| local := ∅; return_value := VInt 1; io := w0 |})
  ∧ truthy (VInt 1) = true
  ∧ main 2 prog_return_compared w0 = (Fail (Raise TypeError), w0)
  ∧ main 2 prog_return_printed w0
    = (Ok (VInt 5), {| stdin := []; stdout := "None" |}).
Proof. repeat split. Qed.

(** In [return(return(5))] the inner call sets 5, and the outer one, in
    progress around it, replaces 5 by the [None] the inner call returned:
    nothing stays pending, the next statement runs and the invocation
    returns [None]. *)
Example return_returned_program :
  evaluate_stmt builtins (run 1 builtins)
    (Expression (call "return" [call "return" [Literal (VInt 5)]])) frame0
  = (Ok tt, frame0)
  ∧ main 2 [ fn_main [ Expression (call "return"
                         [call "return" [Literal (VInt 5)]]);
                       Expression (call "print" [Literal (VStr "after")]) ] ]
      w0
    = (Ok VNone, {| stdin := []; stdout := "after" |}).
Proof. split; reflexivity. Qed.

(** The callee's [return(5)] stops the callee, not the caller. *)
Example callee_return_program :
  main 3 prog_callee_returns w0
  = (Ok VNone, {| stdin := []; stdout := "back" |}).
Proof. reflexivity. Qed.

Lemma pending_return_skips_witness :
  truthy (return_value frame_pending) = true
  ∧ evaluate builtins (run 1 builtins)
      (call "print" [Literal (VStr "x")]) frame_pending
    = (Ok VNone, frame_pending)
  ∧ evaluate_stmt builtins (run 1 builtins)
      (Assignment "$x" (Literal (VInt 1))) frame_pending
    = (Ok tt, frame_pending)
  ∧ forM (evaluate_stmt builtins (run 1 builtins))
      [ Expression (call "print" [Literal (VStr "x")]);
        Assignment "$x" (Literal (VInt 1)) ] frame_pending
    = (Ok tt, frame_pending)
  ∧ run 2 builtins
      (User (fn_main [ Expression (call "return" [Literal (VInt 5)]);
                       Expression (call "print" [Literal (VStr "x")]) ]))
      None w0
    = (Ok (VInt 5), w0).
Proof.
  pose proof (pending_return_skips 1 builtins frame_pending eq_refl)
    as [He [Hs [Hbody [Hrun _]]]].
  split; [reflexivity|]. split; [apply He|]. split; [apply Hs|].
  split; [apply Hbody|].
  exact (Hrun (fn_main [ Expression (call "return" [Literal (VInt 5)]);
                         Expression (call "print" [Literal (VStr "x")]) ])
           None w0 ∅ [] [ Expression (call "print" [Literal (VStr "x")]) ]
           (Expression (call "return" [Literal (VInt 5)])) frame0
           eq_refl eq_refl eq_refl eq_refl eq_refl).
Defined.

(** * Further properties *)

(** ** Computations that keep a relation *)

Section Keeps.
Context {S : Type} (R : S → S → Prop).
Hypothesis R_refl : ∀ s, R s s.
Hypothesis R_trans : ∀ s1 s2 s3, R s1 s2 → R s2 s3 → R s1 s3.

Lemma keeps_ret {A} (a : A) : keeps R (@ret S A a).
Proof. intros s. apply R_refl. Qed.

Lemma keeps_err {A} msg : keeps R (@err S A msg).
Proof. intros s. apply R_refl. Qed.

Lemma keeps_raise {A} e : keeps R (@raise S A e).
Proof. intros s. apply R_refl. Qed.

Lemma keeps_bind {A B} (m : M S A) (k : A → M S B) :
  keeps R m → (∀ a, keeps R (k a)) → keeps R (bind m k).
Proof.
  intros Hm Hk s. unfold bind. specialize (Hm s).
  destruct (m s) as [[a|f] s1]; simpl in *; [|exact Hm].
  eapply R_trans; [exact Hm|apply Hk].
Qed.

Lemma keeps_mapM {A B} (f : A → M S B) (l : list A) :
  Forall (λ x, keeps R (f x)) l → keeps R (mapM f l).
Proof.
  induction 1 as [|x l Hx _ IH]; [apply keeps_ret|].
  simpl. apply keeps_bind; [exact Hx|]. intros y.
  apply keeps_bind; [exact IH|]. intros ys. apply keeps_ret.
Qed.

Lemma keeps_forM {A} (f : A → M S unit) (l : list A) :
  Forall (λ x, keeps R (f x)) l → keeps R (forM f l).
Proof.
  induction 1 as [|x l Hx _ IH]; [apply keeps_ret|].
  simpl. apply keeps_bind; [exact Hx|]. intros _. exact IH.
Qed.

End Keeps.

(** ** What evaluation keeps *)

Section EvaluateKeeps.
Context `{H : Host}.
Variable functions : gmap string callee.
Variable run_rec : callee → option (list value) → M world value.
Variable R : frame → frame → Prop.
Hypothesis R_refl : ∀ st, R st st.
Hypothesis R_trans : ∀ st1 st2 st3, R st1 st2 → R st2 st3 → R st1 st3.
(** Setting the pending value and calling are kept when allowed at all. *)
Variables ret_ok call_ok : Prop.
Hypothesis R_return : ret_ok → ∀ v, keeps R (set_return_value v).
Hypothesis R_call :
  call_ok → ∀ k c vs, functions !! k = Some c → keeps R (on_io (run_rec c vs)).

Lemma stmt_ind_body (P : stmt → Prop) :
  (∀ n e, P (Assignment n e)) →
  (∀ c body, Forall P body → P (Condition c body)) →
  (∀ e, P (Expression e)) →
  ∀ s, P s.
Proof.
  intros HA HC HE. fix IH 1. intros [n e|c body|e].
  - apply HA.
  - apply HC. induction body as [|s body IHbody]; constructor.
    + apply IH.
    + exact IHbody.
  - apply HE.
Qed.

Lemma existsb_false_Forall {A} (f : A → bool) (l : list A) :
  existsb f l = false → Forall (λ x, f x = false) l.
Proof.
  induction l as [|x l IH]; simpl; [constructor|].
  intros [Hx Hl]%orb_false_elim. constructor; auto.
Qed.

Lemma evaluate_params_keeps (args : option (list expr)) :
  (∀ l, args = Some l → Forall (λ e, keeps R (evaluate functions run_rec e)) l) →
  keeps R (evaluate_params (evaluate functions run_rec) args).
Proof.
  intros Hargs st. unfold evaluate_params.
  destruct (truthy (return_value st)); [apply R_refl|].
  destruct args as [l|]; [|apply R_refl].
  refine (keeps_bind R R_trans _ _ _ _ st).
  - apply keeps_mapM; auto.
  - intros vs. apply keeps_ret, R_refl.
Qed.

Lemma evaluate_call_keeps n (args : option (list expr)) :
  (ret_ok ∨ String.eqb n "return" = false) →
  call_ok ∨ String.eqb n "return" = true →
  (∀ l, args = Some l → Forall (λ e, keeps R (evaluate functions run_rec e)) l) →
  keeps R (evaluate functions run_rec (FunctionCall n args)).
Proof.
  intros Hr Hc Hargs st. cbn [evaluate].
  destruct (truthy (return_value st)); [apply R_refl|].
  destruct (String.eqb n "return") eqn:Hn.
  - destruct Hr as [Hr|Hr]; [|discriminate].
    refine (keeps_bind R R_trans _ _ _ _ st).
    + apply evaluate_params_keeps, Hargs.
    + intros [[|v vs]|]; try (apply keeps_raise, R_refl).
      apply keeps_bind; [exact R_trans|apply R_return, Hr|].
      intros _. apply keeps_ret, R_refl.
  - destruct Hc as [Hc|Hc]; [|discriminate].
    destruct (functions !! n) as [f|] eqn:Hf; [|apply R_refl].
    refine (keeps_bind R R_trans _ _ _ _ st).
    + apply evaluate_params_keeps, Hargs.
    + intros vs. apply (R_call Hc n), Hf.
Qed.

Lemma evaluate_keeps e :
  ret_ok ∨ has_return e = false →
  call_ok ∨ has_call e = false →
  keeps R (evaluate functions run_rec e).
Proof.
  induction e as [v|n|l r IHl IHr|n|n args IHargs] using expr_ind_args;
    intros Hr Hc.
  - intros st. cbn [evaluate]. destruct (truthy _); apply R_refl.
  - intros st. cbn [evaluate]. destruct (truthy _); [apply R_refl|].
    destruct (local st !! n); apply R_refl.
  - assert (keeps R (evaluate functions run_rec l)) as Hl.
    { apply IHl; [destruct Hr as [?|[? _]%orb_false_elim]
                 |destruct Hc as [?|[? _]%orb_false_elim]]; auto. }
    assert (keeps R (evaluate functions run_rec r)) as Hrr.
    { apply IHr; [destruct Hr as [?|[_ ?]%orb_false_elim]
                 |destruct Hc as [?|[_ ?]%orb_false_elim]]; auto. }
    intros st. cbn [evaluate]. destruct (truthy _); [apply R_refl|].
    refine (keeps_bind R R_trans _ _ Hl _ st). intros vl.
    apply keeps_bind; [exact R_trans|exact Hrr|].
    intros vr st'. apply R_refl.
  - apply evaluate_call_keeps.
    + destruct Hr as [?|Hr]; [auto|right].
      simpl in Hr. apply orb_false_elim in Hr. tauto.
    + destruct Hc as [?|?]; [auto|discriminate].
    + discriminate.
  - apply evaluate_call_keeps.
    + destruct Hr as [?|Hr]; [auto|right].
      simpl in Hr. apply orb_false_elim in Hr. tauto.
    + destruct Hc as [?|?]; [auto|discriminate].
    + intros l [= <-].
      assert (Forall (λ e, ret_ok ∨ has_return e = false) args) as Hrs.
      { destruct Hr as [?|Hr]; [apply Forall_forall; auto|].
        simpl in Hr. apply orb_false_elim in Hr as [_ Hr].
        apply existsb_false_Forall in Hr.
        eapply Forall_impl; [exact Hr|]. auto. }
      assert (call_ok) as Hco by (destruct Hc; [assumption|discriminate]).
      clear Hr Hc. induction IHargs as [|e args He _ IH]; [constructor|].
      apply Forall_cons in Hrs as [Hre Hrs]. constructor; auto.
Qed.

Hypothesis R_local : ∀ k v, keeps R (set_local k v).
Hypothesis calls : call_ok.

Lemma evaluate_stmt_keeps s :
  ret_ok ∨ has_return_stmt s = false →
  keeps R (evaluate_stmt functions run_rec s).
Proof.
  induction s as [n e|c body IHbody|e] using stmt_ind_body; intros Hr st;
    cbn [evaluate_stmt]; (destruct (truthy _); [apply R_refl|]).
  - refine (keeps_bind R R_trans _ _ _ _ st); [apply evaluate_keeps; auto|].
    intros v. apply R_local.
  - assert (ret_ok ∨ has_return c = false) as Hrc.
    { destruct Hr as [?|[? _]%orb_false_elim]; auto. }
    assert (Forall (λ s, ret_ok ∨ has_return_stmt s = false) body) as Hrb.
    { destruct Hr as [?|[_ Hr]%orb_false_elim]; [apply Forall_forall; auto|].
      apply existsb_false_Forall in Hr.
      eapply Forall_impl; [exact Hr|]. auto. }
    refine (keeps_bind R R_trans _ _ _ _ st); [apply evaluate_keeps; auto|].
    intros v. destruct (negb (truthy v)); [apply keeps_ret, R_refl|].
    apply keeps_forM; [exact R_refl|exact R_trans|].
    clear Hr. induction IHbody as [|s body Hs _ IH]; [constructor|].
    apply Forall_cons in Hrb as [Hrs Hrb]. constructor; auto.
  - refine (keeps_bind R R_trans _ _ _ _ st); [apply evaluate_keeps; auto|].
    intros v. apply keeps_ret, R_refl.
Qed.

Lemma run_statements_keeps (l : list stmt) :
  Forall (λ s, ret_ok ∨ has_return_stmt s = false) l →
  keeps R (run_statements functions run_rec l).
Proof.
  induction 1 as [|s l Hs _ IH]; [apply keeps_ret, R_refl|].
  cbn [run_statements]. apply keeps_bind; [exact R_trans| |].
  - apply evaluate_stmt_keeps, Hs.
  - intros _ st. destruct (truthy _); [apply R_refl|apply IH].
Qed.

End EvaluateKeeps.

(** ** Input and output *)

Section InputOutput.
Context `{H : Host}.
Implicit Types (w : world) (functions : gmap string callee).

Lemma append_assoc (a b c : string) : (a +:+ b) +:+ c = a +:+ (b +:+ c).
Proof.
  induction a as [|x a IH]; [reflexivity|].
  change (String x ((a +:+ b) +:+ c) = String x (a +:+ b +:+ c)).
  rewrite IH. reflexivity.
Qed.

Lemma append_empty_r (a : string) : a +:+ "" = a.
Proof.
  induction a as [|x a IH]; [reflexivity|].
  change (String x (a +:+ "") = String x a). rewrite IH. reflexivity.
Qed.

Lemma continues_refl w : continues w w.
Proof.
  split; [exists ""; symmetry; apply append_empty_r|exists 0%nat; reflexivity].
Qed.

Lemma continues_trans w1 w2 w3 :
  continues w1 w2 → continues w2 w3 → continues w1 w3.
Proof.
  intros [[o1 Ho1] [n1 Hn1]] [[o2 Ho2] [n2 Hn2]]. split.
  - exists (o1 +:+ o2). rewrite Ho2, Ho1. apply append_assoc.
  - exists (n1 + n2)%nat. rewrite Hn2, Hn1. apply drop_drop.
Qed.

Lemma write_continues text w : continues w (write text w).2.
Proof. split; [exists text|exists 0%nat]; reflexivity. Qed.

Lemma zprint_safe : io_safe zprint.
Proof.
  intros [|v rest] w; [apply write_continues|].
  destruct v; apply write_continues.
Qed.

Lemma znot_safe : io_safe znot.
Proof. intros [|v rest] w; apply continues_refl. Qed.

Lemma zadd_safe : io_safe zadd.
Proof. intros [|a [|b rest]] w; apply continues_refl. Qed.

Lemma zget_safe : io_safe zget.
Proof.
  intros args w. unfold zget. destruct (stdin w) as [|content rest] eqn:Hin;
    [apply continues_refl|].
  split; [exists ""; symmetry; apply append_empty_r|].
  exists 1%nat. simpl. rewrite Hin. reflexivity.
Qed.

(** A run from a registry of safe callables continues the process state. *)
Lemma run_continues fuel functions :
  (∀ k c, functions !! k = Some c → callee_safe c) →
  ∀ c args w, callee_safe c → continues w (run fuel functions c args w).2.
Proof.
  intros Hfs. induction fuel as [|fuel IH]; intros c args w Hc;
    [apply continues_refl|].
  destruct c as [f|fn]; [apply Hc|]. rewrite run_user.
  destruct (bind_params fn (default [] args)) as [vars|f];
    [|apply continues_refl].
  pose proof (run_statements_keeps functions (run fuel functions)
                (λ st st', continues (io st) (io st'))
                (λ st, continues_refl (io st))
                (λ st1 st2 st3, continues_trans (io st1) (io st2) (io st3))
                True True) as Hloop.
  specialize (Hloop (λ _ v st, continues_refl (io st))).
  assert (True → ∀ k c vs, functions !! k = Some c →
          keeps (λ st st', continues (io st) (io st'))
            (on_io (run fuel functions c vs))) as Hcall.
  { intros _ k c vs Hk st. unfold on_io.
    pose proof (IH c vs (io st) (Hfs k c Hk)) as Hrun.
    destruct (run fuel functions c vs (io st)). exact Hrun. }
  specialize (Hloop Hcall (λ k v st, continues_refl (io st)) I
                (statements fn)).
  specialize (Hloop (proj2 (Forall_forall _ _) (λ _ _, or_introl I))
                {| local := vars; return_value := VNone; io := w |}).
  destruct (run_statements _ _ _ _) as [[[]|f] st']; exact Hloop.
Qed.

Lemma builtins_safe k c : builtins !! k = Some c → callee_safe c.
Proof.
  unfold builtins. intros Hk.
  repeat (apply lookup_insert_Some in Hk as [[_ <-]|[_ Hk]];
          [first [apply zadd_safe|apply zget_safe|apply znot_safe
                 |apply zprint_safe]|]).
  rewrite lookup_empty in Hk. discriminate.
Qed.

(** X1: whatever a program does and however it ends, the text it has
    written is only added to, and the input left is a tail of the input
    it started with. *)
Theorem main_continues fuel (children : list Function) w :
  continues w (main fuel children w).2.
Proof.
  unfold main, visit_program.
  pose proof (visit_loop_lookup builtins children) as Hreg.
  destruct (visit_loop builtins children) as [[fn|] functions];
    [|apply continues_refl].
  apply run_continues; [|exact I].
  intros k c Hk. simpl in Hreg. rewrite Hreg in Hk.
  destruct (last_named k children).
  - injection Hk as <-. exact I.
  - apply (builtins_safe k), Hk.
Qed.

End InputOutput.

(** ** Values of invocations and of expressions *)

Section Results.
Context `{H : Host}.
Implicit Types (e : expr) (st : frame) (fn : Function) (w : world)
  (functions : gmap string callee).

Lemma has_call_return e : has_call e = false → has_return e = false.
Proof.
  induction e as [v|n|l r IHl IHr|n|n args _] using expr_ind_args;
    try reflexivity; try discriminate.
  simpl. intros [Hl Hr]%orb_false_elim. rewrite IHl, IHr by assumption.
  reflexivity.
Qed.

(** X5: an invocation of a function whose body holds no call of
    [return], at any depth of its conditions and expressions, returns
    [None] when it returns. *)
Theorem no_return_gives_none fuel functions fn (args : option (list value)) w v w' :
  existsb has_return_stmt (statements fn) = false →
  run (S fuel) functions (User fn) args w = (Ok v, w') →
  v = VNone.
Proof.
  intros Hbody. rewrite run_user.
  destruct (bind_params fn (default [] args)) as [vars|f]; [|discriminate].
  pose proof (run_statements_keeps functions (run fuel functions)
                (λ st st', return_value st' = return_value st)
                (λ st, eq_refl)
                (λ st1 st2 st3 H12 H23, eq_trans H23 H12)
                False True
                (λ (no : False) v, match no with end)
                (λ _ k c vs _ st, proj1 (on_io_frame (run fuel functions c vs) st))
                (λ k v st, eq_refl) I (statements fn)) as Hloop.
  apply existsb_false_Forall in Hbody.
  specialize (Hloop (Forall_impl _ _ _ Hbody (λ s Hs, or_intror Hs))
                {| local := vars; return_value := VNone; io := w |}).
  destruct (run_statements _ _ _ _) as [[[]|f] st']; [|discriminate].
  intros [= <- _]. exact Hloop.
Qed.

(** X6: evaluating an expression that contains no call leaves the whole
    frame as it is (variables, pending value, input and output), so that
    evaluating it again gives the same result. *)
Theorem call_free_pure functions run_rec e st :
  has_call e = false →
  (evaluate functions run_rec e st).2 = st
  ∧ evaluate functions run_rec e (evaluate functions run_rec e st).2
    = evaluate functions run_rec e st.
Proof.
  intros He.
  assert ((evaluate functions run_rec e st).2 = st) as Hst.
  { symmetry.
    refine (evaluate_keeps functions run_rec eq (λ st, eq_refl)
              (λ st1 st2 st3, @eq_trans _ st1 st2 st3) False False
              (λ (no : False), match no with end)
              (λ (no : False), match no with end) e _ _ st).
    - right. apply has_call_return, He.
    - right. exact He. }
  split; [exact Hst|]. rewrite Hst. reflexivity.
Qed.

End Results.

Lemma no_return_gives_none_witness :
  existsb has_return_stmt (statements fn_greet) = false
  ∧ run 2 builtins (User fn_greet) (Some [VStr "z"]) w0
    = (Ok VNone, {| stdin := []; stdout := "hello z" |}).
Proof.
  split; [reflexivity|].
  pose proof (no_return_gives_none 1 builtins fn_greet (Some [VStr "z"]) w0)
    as Hnone.
  destruct (run 2 builtins (User fn_greet) (Some [VStr "z"]) w0)
    as [[v|f] w'] eqn:Hrun; [|discriminate].
  rewrite (Hnone v w' eq_refl eq_refl). injection Hrun as _ <-. reflexivity.
Defined.

Lemma call_free_pure_witness :
  has_call (Comparison (Identifier "$x") (Literal (VInt 2))) = false
  ∧ (evaluate builtins (run 1 builtins)
       (Comparison (Identifier "$x") (Literal (VInt 2))) frame_x).2 = frame_x.
Proof.
  split; [reflexivity|].
  exact (proj1 (call_free_pure builtins (run 1 builtins)
                  (Comparison (Identifier "$x") (Literal (VInt 2))) frame_x
                  eq_refl)).
Defined.

(** ** Two evaluators that agree *)

Section Refines.
Context {S : Type} (G : failure → Prop).

Lemma refines_refl {A} (m : M S A) : refines G m m.
Proof. intros s r s' Hm _. exact Hm. Qed.

Lemma refines_bind {A B} (m m' : M S A) (k k' : A → M S B) :
  refines G m m' → (∀ a, refines G (k a) (k' a)) →
  refines G (bind m k) (bind m' k').
Proof.
  intros Hm Hk s r s' Hb Hg. unfold bind in *.
  destruct (m s) as [[a|f] s1] eqn:Hms.
  - rewrite (Hm s (Ok a) s1 Hms) by discriminate. apply Hk; assumption.
  - injection Hb as <- <-. rewrite (Hm s (Fail f) s1 Hms); [reflexivity|].
    intros f0 [= <-]. apply Hg. reflexivity.
Qed.

Lemma refines_mapM {A B} (f f' : A → M S B) (l : list A) :
  Forall (λ x, refines G (f x) (f' x)) l → refines G (mapM f l) (mapM f' l).
Proof.
  induction 1 as [|x l Hx _ IH]; [apply refines_refl|].
  simpl. apply refines_bind; [exact Hx|]. intros y.
  apply refines_bind; [exact IH|]. intros ys. apply refines_refl.
Qed.

Lemma refines_forM {A} (f f' : A → M S unit) (l : list A) :
  Forall (λ x, refines G (f x) (f' x)) l → refines G (forM f l) (forM f' l).
Proof.
  induction 1 as [|x l Hx _ IH]; [apply refines_refl|].
  simpl. apply refines_bind; [exact Hx|]. intros _. exact IH.
Qed.

End Refines.

Section EvaluateRefines.
Context `{H : Host}.
Variable G : failure → Prop.
Variables functions functions' : gmap string callee.
Variables run_rec run_rec' : callee → option (list value) → M world value.
(** The registries agree on every name a call can look up. *)
Hypothesis same_functions :
  ∀ k, k ≠ "return" → functions !! k = functions' !! k.
Hypothesis run_refines :
  ∀ k c vs, functions !! k = Some c → refines G (run_rec c vs) (run_rec' c vs).

Local Abbreviation ev := (evaluate functions run_rec).
Local Abbreviation ev' := (evaluate functions' run_rec').

Lemma refines_guard {A} (m m' : M frame A) (a : A) :
  (∀ st, truthy (return_value st) = false → ∀ r st',
         m st = (r, st') → (∀ f, r = Fail f → G f) → m' st = (r, st')) →
  refines G
    (λ st, if truthy (return_value st) then (Ok a, st) else m st)
    (λ st, if truthy (return_value st) then (Ok a, st) else m' st).
Proof.
  intros Hm st r st' Hrun Hg.
  destruct (truthy (return_value st)) eqn:Hrv; [exact Hrun|].
  apply Hm; assumption.
Qed.

Lemma on_io_refines {A} (m m' : M world A) :
  refines G m m' → refines G (on_io m) (on_io m').
Proof.
  intros Hm st r st' Hrun Hg. unfold on_io in *.
  destruct (m (io st)) as [r0 w0] eqn:Hmw. injection Hrun as <- <-.
  rewrite (Hm (io st) r0 w0 Hmw Hg). reflexivity.
Qed.

Lemma evaluate_params_refines (args : option (list expr)) :
  (∀ l, args = Some l → Forall (λ e, refines G (ev e) (ev' e)) l) →
  refines G (evaluate_params ev args) (evaluate_params ev' args).
Proof.
  intros Hargs. unfold evaluate_params. apply refines_guard.
  intros st _ r st'. destruct args as [l|]; [|intros Hr _; exact Hr].
  apply (refines_bind G); [apply refines_mapM; auto|].
  intros vs. apply refines_refl.
Qed.

Lemma evaluate_call_refines n (args : option (list expr)) :
  (∀ l, args = Some l → Forall (λ e, refines G (ev e) (ev' e)) l) →
  refines G (ev (FunctionCall n args)) (ev' (FunctionCall n args)).
Proof.
  intros Hargs st r st'. cbn [evaluate].
  destruct (truthy (return_value st)); [intros Hr _; exact Hr|].
  destruct (String.eqb_spec n "return") as [_|Hn].
  - apply (refines_bind G); [apply evaluate_params_refines, Hargs|].
    intros vs. apply refines_refl.
  - rewrite <- (same_functions n Hn).
    destruct (functions !! n) as [f|] eqn:Hf; [|intros Hr _; exact Hr].
    apply (refines_bind G); [apply evaluate_params_refines, Hargs|].
    intros vs. apply on_io_refines, (run_refines n), Hf.
Qed.

Lemma evaluate_refines e : refines G (ev e) (ev' e).
Proof.
  induction e as [v|n|l r IHl IHr|n|n args IHargs] using expr_ind_args.
  - intros st r st' Hr _. exact Hr.
  - intros st r st' Hr _. exact Hr.
  - intros st res st'. cbn [evaluate].
    destruct (truthy (return_value st)); [intros Hr _; exact Hr|].
    apply (refines_bind G); [exact IHl|]. intros vl.
    apply refines_bind; [exact IHr|]. intros vr. apply refines_refl.
  - apply evaluate_call_refines. discriminate.
  - apply evaluate_call_refines. intros l [= <-]. exact IHargs.
Qed.

Lemma evaluate_stmt_refines s :
  refines G (evaluate_stmt functions run_rec s)
            (evaluate_stmt functions' run_rec' s).
Proof.
  induction s as [n e|c body IHbody|e] using stmt_ind_body;
    intros st r st'; cbn [evaluate_stmt];
    (destruct (truthy (return_value st)); [intros Hr _; exact Hr|]).
  - apply (refines_bind G); [apply evaluate_refines|].
    intros v. apply refines_refl.
  - apply (refines_bind G); [apply evaluate_refines|].
    intros v. destruct (negb (truthy v)); [apply refines_refl|].
    apply refines_forM, IHbody.
  - apply (refines_bind G); [apply evaluate_refines|].
    intros v. apply refines_refl.
Qed.

Lemma run_statements_refines (l : list stmt) :
  refines G (run_statements functions run_rec l)
            (run_statements functions' run_rec' l).
Proof.
  induction l as [|s l IH]; [apply refines_refl|].
  cbn [run_statements]. apply refines_bind; [apply evaluate_stmt_refines|].
  intros _ st r st'. destruct (truthy (return_value st)); [auto|apply IH].
Qed.

End EvaluateRefines.

(** ** Runs that agree *)

Section RunAgrees.
Context `{H : Host}.
Implicit Types (functions : gmap string callee) (w : world).

Lemma run_deeper (fuel : nat) :
  ∀ (fuel' : nat) functions c args, (fuel ≤ fuel')%nat →
    refines (λ f, f ≠ OutOfFuel)
      (run fuel functions c args) (run fuel' functions c args).
Proof.
  induction fuel as [|fuel IH]; intros fuel' functions c args Hle w r w' Hrun Hg.
  - injection Hrun as <- <-. destruct (Hg OutOfFuel eq_refl eq_refl).
  - destruct fuel' as [|fuel']; [lia|]. destruct c as [f|fn]; [exact Hrun|].
    rewrite run_user in *.
    destruct (bind_params fn (default [] args)) as [vars|f]; [|exact Hrun].
    pose proof (run_statements_refines (λ f, f ≠ OutOfFuel) functions functions
                  (run fuel functions) (run fuel' functions)
                  (λ k _, eq_refl)
                  (λ k c vs _, IH fuel' functions c vs ltac:(lia))
                  (statements fn)
                  {| local := vars; return_value := VNone; io := w |})
      as Hloop.
    destruct (run_statements functions (run fuel functions) _ _)
      as [[[]|f] st1].
    + rewrite (Hloop (Ok tt) st1 eq_refl) by discriminate. exact Hrun.
    + injection Hrun as <- <-. rewrite (Hloop (Fail f) st1 eq_refl);
        [reflexivity|]. intros f0 [= <-]. apply Hg. reflexivity.
Qed.

(** X15: a program that ended within a bound on the depth of nested
    calls, in a result or in a failure of its own, ends in the same way
    under every larger bound. *)
Theorem main_deeper (fuel fuel' : nat) (children : list Function) w r w' :
  (fuel ≤ fuel')%nat →
  main fuel children w = (r, w') →
  finished r →
  main fuel' children w = (r, w').
Proof.
  unfold main, visit_program. intros Hle.
  destruct (visit_loop builtins children) as [[fn|] functions]; [|auto].
  intros Hrun Hfin. apply (run_deeper fuel fuel' _ _ _ Hle _ _ _ Hrun).
  intros f -> ->. apply Hfin. reflexivity.
Qed.

Lemma run_off_return fuel :
  ∀ functions functions' c args w,
    (∀ k, k ≠ "return" → functions !! k = functions' !! k) →
    run fuel functions c args w = run fuel functions' c args w.
Proof.
  induction fuel as [|fuel IH]; intros functions functions' c args w Hsame;
    [reflexivity|].
  destruct c as [f|fn]; [reflexivity|]. rewrite !run_user.
  destruct (bind_params fn (default [] args)) as [vars|f]; [|reflexivity].
  pose proof (run_statements_refines (λ _, True) functions functions'
                (run fuel functions) (run fuel functions') Hsame) as Hloop.
  assert (∀ k c vs, functions !! k = Some c →
            refines (λ _, True) (run fuel functions c vs)
              (run fuel functions' c vs)) as Hrec.
  { intros k c vs _ w1 r w1' Hrun _.
    rewrite <- (IH functions functions' c vs w1 Hsame). exact Hrun. }
  specialize (Hloop Hrec (statements fn)
                {| local := vars; return_value := VNone; io := w |}).
  destruct (run_statements functions (run fuel functions) _ _) as [r st1].
  rewrite (Hloop r st1 eq_refl) by auto. reflexivity.
Qed.

Lemma last_named_off k (children : list Function) (P : Function → Prop)
    `{∀ fn, Decision (P fn)} :
  (∀ fn, name fn = k → P fn) →
  last_named k (filter P children) = last_named k children.
Proof.
  intros HP. unfold last_named. f_equal. rewrite list_filter_filter.
  apply list_filter_iff. intros fn. split; [tauto|]. auto.
Qed.

(** X4: [evaluate] handles the name [return] before it looks a name up in
    [functions], so a declaration named [return] is never called: a
    program behaves the same with all such declarations removed. *)
Theorem return_declaration_dead fuel (children : list Function) w :
  main fuel (filter (λ fn, name fn ≠ "return") children) w
  = main fuel children w.
Proof.
  unfold main, visit_program.
  pose proof (visit_loop_main builtins children) as Hm.
  pose proof (visit_loop_lookup builtins children) as Hr.
  pose proof (visit_loop_main builtins
                (filter (λ fn, name fn ≠ "return") children)) as Hm'.
  pose proof (visit_loop_lookup builtins
                (filter (λ fn, name fn ≠ "return") children)) as Hr'.
  destruct (visit_loop builtins children) as [m functions].
  destruct (visit_loop builtins _) as [m' functions'].
  simpl in *. subst m m'.
  rewrite last_named_off by (intros fn ->; discriminate).
  destruct (last_named "main" children) as [fn|]; [|reflexivity].
  apply run_off_return. intros k Hk. rewrite Hr, Hr'.
  rewrite last_named_off by (intros g <-; exact Hk). reflexivity.
Qed.

End RunAgrees.

Lemma main_deeper_witness :
  (2 ≤ 5)%nat
  ∧ finished (main 2 prog_falsy_return w0).1
  ∧ main 5 prog_falsy_return w0
    = (Ok (VInt 0), {| stdin := []; stdout := "after" |}).
Proof.
  split; [lia|]. split; [discriminate|].
  apply (main_deeper 2 5 prog_falsy_return w0); [lia|reflexivity|discriminate].
Defined.

(** The declared [return] is not what [return(7)] calls. *)
Example return_declared_program :
  main 3 prog_return_declared w0 = (Ok (VInt 7), w0).
Proof. reflexivity. Qed.

(** ** Single constructs, continued *)

Section Constructs.
Context `{H : Host}.
Implicit Types (e : expr) (s : stmt) (st : frame) (v : value)
  (fn : Function) (w : world) (functions : gmap string callee).

(** X8: [return()] without an argument ends in the host's [TypeError]
    and sets nothing; [return] with several arguments evaluates all of
    them in order and keeps the value of the first as the pending value;
    a failure among the arguments is the failure of the [return]. *)
Theorem return_arguments functions run_rec st :
  truthy (return_value st) = false →
  evaluate functions run_rec (FunctionCall "return" None) st
  = (Fail (Raise TypeError), st)
  ∧ (∀ e es v vs st',
       mapM (evaluate functions run_rec) (e :: es) st = (Ok (v :: vs), st') →
       evaluate functions run_rec (call "return" (e :: es)) st
       = (Ok VNone, {| local := local st'; return_value := v; io := io st' |}))
  ∧ (∀ e es f st',
       mapM (evaluate functions run_rec) (e :: es) st = (Fail f, st') →
       evaluate functions run_rec (call "return" (e :: es)) st = (Fail f, st')).
Proof.
  intros Hrv. split; [|split].
  - cbn [evaluate]. rewrite Hrv. cbn [String.eqb Ascii.eqb Bool.eqb].
    unfold bind, evaluate_params. rewrite Hrv. reflexivity.
  - intros e es v vs st' Hargs. unfold call. cbn [evaluate]. rewrite Hrv.
    cbn [String.eqb Ascii.eqb Bool.eqb].
    unfold bind at 1, evaluate_params. rewrite Hrv.
    unfold bind at 1. rewrite Hargs. reflexivity.
  - intros e es f st' Hargs. unfold call. cbn [evaluate]. rewrite Hrv.
    cbn [String.eqb Ascii.eqb Bool.eqb].
    unfold bind at 1, evaluate_params. rewrite Hrv.
    unfold bind at 1. rewrite Hargs. reflexivity.
Qed.

(** X7: an assignment whose value evaluates to [v] binds its name to [v]
    in the local variables of the current invocation, a read of the name
    right after finds [v], and every other name keeps what it had. *)
Theorem assignment_binds functions run_rec n e st v st' :
  truthy (return_value st) = false →
  evaluate functions run_rec e st = (Ok v, st') →
  let after := {| local := <[n := v]> (local st);
                  return_value := return_value st'; io := io st' |} in
  evaluate_stmt functions run_rec (Assignment n e) st = (Ok tt, after)
  ∧ (truthy (return_value st') = false →
     evaluate functions run_rec (Identifier n) after = (Ok v, after))
  ∧ (∀ k, k ≠ n → local after !! k = local st !! k).
Proof.
  intros Hrv He after. split; [|split].
  - cbn [evaluate_stmt]. rewrite Hrv. unfold bind. rewrite He.
    unfold set_local, after.
    rewrite (evaluate_local functions run_rec e st _ st' He). reflexivity.
  - intros Hrv'. rewrite evaluate_identifier by exact Hrv'.
    simpl. rewrite lookup_insert_eq. reflexivity.
  - intros k Hk. simpl. apply lookup_insert_ne. congruence.
Qed.

(** X12: in a registry where [not] is the built-in, [not(not(e))]
    evaluates to the truth value of [e] as a Boolean and has the effects
    of [e] alone, whatever [e] is and whatever it leaves pending. *)
Theorem not_not_truth fuel functions e st v st' :
  functions !! "not" = Some (Callable znot) →
  truthy (return_value st) = false →
  evaluate functions (run (S fuel) functions) e st = (Ok v, st') →
  evaluate functions (run (S fuel) functions) (call "not" [call "not" [e]]) st
  = (Ok (VBool (truthy v)), st').
Proof.
  intros Hnot Hrv He.
  assert (evaluate functions (run (S fuel) functions) (call "not" [e]) st
          = (Ok (VBool (negb (truthy v))), st')) as Hinner.
  { unfold call. cbn [evaluate]. rewrite Hrv.
    cbn [String.eqb Ascii.eqb Bool.eqb]. rewrite Hnot.
    unfold bind at 1, evaluate_params. rewrite Hrv.
    unfold mapM, bind. rewrite He. unfold ret, on_io. simpl.
    destruct st'; reflexivity. }
  unfold call at 1. cbn [evaluate]. rewrite Hrv.
  cbn [String.eqb Ascii.eqb Bool.eqb]. rewrite Hnot.
  unfold bind at 1, evaluate_params. rewrite Hrv.
  unfold mapM, bind. rewrite Hinner. unfold ret, on_io. simpl.
  rewrite negb_involutive. destruct st'; reflexivity.
Qed.

(** *** [zget] *)

(** X13: [get] on exhausted input ends in the host's [EOFError]; otherwise
    it takes exactly the first line, writes nothing, and returns the line
    converted by [float] when it holds a dot and by [int] when it does
    not, or the line itself as a string when that conversion fails. *)
Theorem zget_line (args : list value) w :
  (stdin w = [] → zget args w = (Fail (Raise EOFError), w))
  ∧ (∀ content rest,
       stdin w = content :: rest →
       ∃ v, zget args w = (Ok v, {| stdin := rest; stdout := stdout w |})
            ∧ (has_dot content = true →
               v = default (VStr content) (VFloat <$> float_parse content))
            ∧ (has_dot content = false →
               v = default (VStr content) (VInt <$> int_parse content))
            ∧ (float_parse content = None → int_parse content = None →
               v = VStr content)).
Proof.
  unfold zget. split.
  - intros ->. reflexivity.
  - intros content rest ->. eexists. split; [reflexivity|].
    destruct (has_dot content); repeat split; try discriminate.
    + intros Hf _. rewrite Hf. reflexivity.
    + intros _ Hi. rewrite Hi. reflexivity.
Qed.

(** *** Arguments and parameters *)

Lemma fold_insert_last (ps : list string) (args : list value)
    (m : gmap string value) i p a :
  ps !! i = Some p → args !! i = Some a → p ∉ drop (S i) ps →
  fold_left (λ m nv, <[nv.1 := nv.2]> m) (zip ps args) m !! p = Some a.
Proof.
  revert args m i. induction ps as [|p0 ps IH]; intros [|a0 args] m i Hp Ha Hlast;
    try discriminate.
  destruct i as [|i]; simpl in *.
  - injection Hp as ->. injection Ha as ->.
    rewrite drop_0 in Hlast.
    rewrite fold_insert_other by exact Hlast. apply lookup_insert_eq.
  - eapply IH; eassumption.
Qed.

Lemma fold_insert_dom (ps : list string) (args : list value)
    (m : gmap string value) :
  length ps = length args →
  dom (fold_left (λ m nv, <[nv.1 := nv.2]> m) (zip ps args) m)
  = dom m ∪ list_to_set ps.
Proof.
  revert args m. induction ps as [|p ps IH]; intros [|a args] m Hlen;
    try discriminate.
  - simpl. rewrite (right_id_L ∅ (∪)). reflexivity.
  - simpl. rewrite IH by (simpl in Hlen; lia). rewrite dom_insert_L.
    rewrite (comm_L (∪) {[p]} (dom m)), <- (assoc_L (∪)). reflexivity.
Qed.

(** X9: a call of a function that has a parameter list with at least one
    argument and a different number of arguments than parameters ends
    through [err] with the message naming the function, before any
    statement of the body and with the process state untouched. *)
Theorem arity_mismatch_reported fuel functions fn ps v (args : list value) w :
  params fn = Some ps →
  length (v :: args) ≠ length ps →
  run (S fuel) functions (User fn) (Some (v :: args)) w
  = (Fail (Exit ("Incorrect number of arguments to function " +:+ name fn)), w).
Proof.
  intros Hps Hlen. rewrite run_user. simpl default.
  rewrite (bind_params_mismatch fn ps v args Hps Hlen). reflexivity.
Qed.

(** X10: a call with at least one argument and as many arguments as
    parameters runs the body from local variables whose names are exactly
    the parameters, each bound to the argument at its position (at its
    last position when a name is repeated), and with nothing pending. *)
Theorem parameters_bound fuel functions fn ps v (args : list value) w :
  params fn = Some ps →
  length (v :: args) = length ps →
  ∃ vars,
    dom vars = list_to_set ps
    ∧ (∀ i p a, ps !! i = Some p → (v :: args) !! i = Some a →
                p ∉ drop (S i) ps → vars !! p = Some a)
    ∧ run (S fuel) functions (User fn) (Some (v :: args)) w
      = match run_statements functions (run fuel functions) (statements fn)
                {| local := vars; return_value := VNone; io := w |} with
        | (Ok _, st') => (Ok (return_value st'), io st')
        | (Fail f, st') => (Fail f, io st')
        end.
Proof.
  intros Hps Hlen.
  exists (fold_left (λ m nv, <[nv.1 := nv.2]> m) (zip ps (v :: args)) ∅).
  split; [|split].
  - rewrite fold_insert_dom by (symmetry; exact Hlen).
    rewrite dom_empty_L. apply (left_id_L ∅ (∪)).
  - intros i p a. apply fold_insert_last.
  - rewrite run_user. simpl default. unfold bind_params. rewrite Hps.
    apply Nat.eqb_eq in Hlen. rewrite Hlen. reflexivity.
Qed.

(** X11: nothing catches a failure.  When a statement of a function body
    fails, the invocation fails in the same way, with the output written
    up to there, and the statements after it do not run; a caller whose
    statement is that call fails in the same way in turn. *)
Theorem failure_ends_invocation fuel functions fn (args : option (list value))
    w vars (pre post : list stmt) s st0 f st1 :
  statements fn = (pre ++ s :: post)%list →
  bind_params fn (default [] args) = Ok vars →
  run_statements functions (run fuel functions) pre
    {| local := vars; return_value := VNone; io := w |} = (Ok tt, st0) →
  truthy (return_value st0) = false →
  evaluate_stmt functions (run fuel functions) s st0 = (Fail f, st1) →
  run (S fuel) functions (User fn) args w = (Fail f, io st1)
  ∧ (∀ g caller,
       g ≠ "return" →
       functions !! g = Some (User fn) →
       truthy (return_value caller) = false →
       io caller = w →
       args = None →
       evaluate_stmt functions (run (S fuel) functions)
         (Expression (FunctionCall g None)) caller
       = (Fail f, {| local := local caller;
                     return_value := return_value caller; io := io st1 |})).
Proof.
  intros Hbody Hvars Hpre Hrv0 Hs.
  assert (run (S fuel) functions (User fn) args w = (Fail f, io st1)) as Hrun.
  { rewrite run_user, Hvars, Hbody.
    rewrite (run_statements_app _ _ pre (s :: post) _ st0 Hpre Hrv0).
    rewrite run_statements_cons, Hs. reflexivity. }
  split; [exact Hrun|].
  intros g caller Hg Hfn Hrvc Hio ->.
  cbn [evaluate_stmt]. rewrite Hrvc. unfold bind at 1.
  rewrite (evaluate_call_no_args (S fuel) functions g (User fn) caller
             Hrvc Hg Hfn).
  unfold on_io. rewrite Hio, Hrun. reflexivity.
Qed.

End Constructs.

(** ** Names of functions *)

Section Avoids.
Context {S : Type} (bad : failure).

Lemma avoids_ret {A} (a : A) : avoids bad (@ret S A a).
Proof. intros s. discriminate. Qed.

Lemma avoids_bind {A B} (m : M S A) (k : A → M S B) :
  avoids bad m → (∀ a, avoids bad (k a)) → avoids bad (bind m k).
Proof.
  intros Hm Hk s. unfold bind. specialize (Hm s).
  destruct (m s) as [[a|f] s1]; [apply Hk|].
  simpl in *. congruence.
Qed.

Lemma avoids_mapM {A B} (f : A → M S B) (l : list A) :
  Forall (λ x, avoids bad (f x)) l → avoids bad (mapM f l).
Proof.
  induction 1 as [|x l Hx _ IH]; [apply avoids_ret|].
  simpl. apply avoids_bind; [exact Hx|]. intros y.
  apply avoids_bind; [exact IH|]. intros ys. apply avoids_ret.
Qed.

Lemma avoids_forM {A} (f : A → M S unit) (l : list A) :
  Forall (λ x, avoids bad (f x)) l → avoids bad (forM f l).
Proof.
  induction 1 as [|x l Hx _ IH]; [apply avoids_ret|].
  simpl. apply avoids_bind; [exact Hx|]. intros _. exact IH.
Qed.

End Avoids.

Section Resolution.
Context `{H : Host}.
Implicit Types (e : expr) (s : stmt) (st : frame) (v : value)
  (fn : Function) (w : world) (functions : gmap string callee).

Lemma dom_builtins : dom builtins = {["add"; "get"; "not"; "print"]}.
Proof. reflexivity. Qed.

(** X3: a call of a name that is not [return], not one of the four
    built-ins and not declared by the program ends through [err] with
    the undefined-function message; its arguments are not evaluated and
    the frame is untouched. *)
Theorem undefined_function (children : list Function) run_rec n params st :
  n ≠ "return" →
  n ∉ ({["add"; "get"; "not"; "print"]} : gset string) →
  n ∉ declared children →
  truthy (return_value st) = false →
  evaluate (visit_loop builtins children).2 run_rec (FunctionCall n params) st
  = (Fail (Exit ("Undefined function " +:+ n)), st).
Proof.
  intros Hn Hb Hd Hrv. cbn [evaluate]. rewrite Hrv.
  apply String.eqb_neq in Hn. rewrite Hn.
  assert ((visit_loop builtins children).2 !! n = None) as ->; [|reflexivity].
  apply not_elem_of_dom. rewrite visit_loop_dom, dom_builtins.
  intros [?|?]%elem_of_union; auto.
Qed.

Section Message.
(** The name [k] is in the registry. *)
Variable functions : gmap string callee.
Variable run_rec : callee → option (list value) → M world value.
Variable k : string.
Hypothesis registered : is_Some (functions !! k).
Hypothesis run_avoids :
  ∀ n c vs, functions !! n = Some c →
            avoids (Exit ("Undefined function " +:+ k)) (run_rec c vs).

Local Abbreviation bad := (Exit ("Undefined function " +:+ k)).

Lemma py_lt_no_exit a b msg : py_lt a b ≠ Fail (Exit msg).
Proof.
  unfold py_lt. destruct a, b; simpl; try discriminate;
    repeat (match goal with |- context [if ?b then _ else _] => destruct b end);
    discriminate.
Qed.

Lemma evaluate_params_avoids (args : option (list expr)) :
  (∀ l, args = Some l →
        Forall (λ e, avoids bad (evaluate functions run_rec e)) l) →
  avoids bad (evaluate_params (evaluate functions run_rec) args).
Proof.
  intros Hargs st. unfold evaluate_params.
  destruct (truthy (return_value st)); [discriminate|].
  destruct args as [l|]; [|discriminate].
  refine (avoids_bind bad _ _ _ _ st).
  - apply avoids_mapM; auto.
  - intros vs. apply avoids_ret.
Qed.

Lemma evaluate_call_avoids n (args : option (list expr)) :
  (∀ l, args = Some l →
        Forall (λ e, avoids bad (evaluate functions run_rec e)) l) →
  avoids bad (evaluate functions run_rec (FunctionCall n args)).
Proof.
  intros Hargs st. cbn [evaluate].
  destruct (truthy (return_value st)); [discriminate|].
  destruct (String.eqb n "return").
  - refine (avoids_bind bad _ _ _ _ st).
    + apply evaluate_params_avoids, Hargs.
    + intros [[|v vs]|] st'; try discriminate.
  - destruct (functions !! n) as [f|] eqn:Hf.
    + refine (avoids_bind bad _ _ _ _ st).
      * apply evaluate_params_avoids, Hargs.
      * intros vs st'. unfold on_io.
        pose proof (run_avoids n f vs Hf (io st')) as Hrun.
        destruct (run_rec f vs (io st')). exact Hrun.
    + simpl. intros [= Heq]. apply (inj (String.append _)) in Heq.
      subst n. rewrite Hf in registered. destruct registered. discriminate.
Qed.

Lemma evaluate_avoids e : avoids bad (evaluate functions run_rec e).
Proof.
  induction e as [v|n|l r IHl IHr|n|n args IHargs] using expr_ind_args.
  - intros st. cbn [evaluate]. destruct (truthy _); discriminate.
  - intros st. cbn [evaluate]. destruct (truthy _); [discriminate|].
    destruct (local st !! n); [discriminate|].
    simpl. intros [= Heq].
  - intros st. cbn [evaluate]. destruct (truthy _); [discriminate|].
    refine (avoids_bind bad _ _ IHl _ st). intros vl.
    apply avoids_bind; [exact IHr|]. intros vr st'. apply py_lt_no_exit.
  - apply evaluate_call_avoids. discriminate.
  - apply evaluate_call_avoids. intros l [= <-]. exact IHargs.
Qed.

Lemma evaluate_stmt_avoids s : avoids bad (evaluate_stmt functions run_rec s).
Proof.
  induction s as [n e|c body IHbody|e] using stmt_ind_body; intros st;
    cbn [evaluate_stmt]; (destruct (truthy _); [discriminate|]).
  - refine (avoids_bind bad _ _ (evaluate_avoids e) _ st).
    intros v st'. discriminate.
  - refine (avoids_bind bad _ _ (evaluate_avoids c) _ st).
    intros v. destruct (negb (truthy v)); [apply avoids_ret|].
    apply avoids_forM, IHbody.
  - refine (avoids_bind bad _ _ (evaluate_avoids e) _ st).
    intros v. apply avoids_ret.
Qed.

Lemma run_statements_avoids (l : list stmt) :
  avoids bad (run_statements functions run_rec l).
Proof.
  induction l as [|s l IH]; [apply avoids_ret|].
  cbn [run_statements]. apply avoids_bind; [apply evaluate_stmt_avoids|].
  intros _ st. destruct (truthy _); [discriminate|apply IH].
Qed.

End Message.

Lemma py_add_no_exit a b msg : py_add a b ≠ Fail (Exit msg).
Proof.
  unfold py_add. destruct a, b; simpl; try discriminate;
    repeat (match goal with
            | |- context [if ?b then _ else _] => destruct b
            | |- context [match float_of_int ?z with _ => _ end] =>
              destruct (float_of_int z)
            end);
    discriminate.
Qed.

Lemma builtins_quiet k n c : builtins !! n = Some c → quiet k c.
Proof.
  unfold builtins. intros Hn.
  repeat (apply lookup_insert_Some in Hn as [[_ <-]|[_ Hn]];
          [|]); try (rewrite lookup_empty in Hn; discriminate).
  - intros [|a [|b rest]] w; try discriminate. apply py_add_no_exit.
  - intros args w. unfold zget. destruct (stdin w); discriminate.
  - intros [|a rest] w; discriminate.
  - intros [|a rest] w; [discriminate|]. destruct a; discriminate.
Qed.

Lemma run_avoids_missing k (fuel : nat) functions :
  is_Some (functions !! k) →
  (∀ n c, functions !! n = Some c → quiet k c) →
  ∀ c args, quiet k c →
    avoids (Exit ("Undefined function " +:+ k)) (run fuel functions c args).
Proof.
  intros Hk Hfs. induction fuel as [|fuel IH]; intros c args Hc w;
    [discriminate|].
  destruct c as [f|fn]; [apply Hc|]. rewrite run_user.
  destruct (bind_params fn (default [] args)) as [vars|f] eqn:Hvars.
  - pose proof (run_statements_avoids functions (run fuel functions) k Hk
                  (λ n c vs Hn, IH c vs (Hfs n c Hn)) (statements fn)
                  {| local := vars; return_value := VNone; io := w |}) as Hloop.
    destruct (run_statements _ _ _ _) as [[[]|f] st']; [discriminate|].
    simpl in *. congruence.
  - unfold bind_params in Hvars. destruct (default [] args); [discriminate|].
    destruct (params fn); [|injection Hvars as <-; discriminate].
    destruct (negb _); [|discriminate]. injection Hvars as <-.
    simpl. intros [= Heq].
Qed.

(** X2: no run of a program ends in the undefined-function message for
    [add], [get], [not], [print] or a name the program declares. *)
Theorem registered_never_undefined fuel (children : list Function) w k :
  k ∈ ({["add"; "get"; "not"; "print"]} : gset string) ∪ declared children →
  (main fuel children w).1 ≠ Fail (Exit ("Undefined function " +:+ k)).
Proof.
  intros Hk. unfold main, visit_program.
  pose proof (visit_loop_lookup builtins children) as Hreg.
  pose proof (visit_loop_dom builtins children) as Hdom.
  destruct (visit_loop builtins children) as [[fn|] functions];
    [|simpl; intros [= Heq]].
  simpl in Hreg, Hdom. apply run_avoids_missing; [| |exact I].
  - apply elem_of_dom. rewrite Hdom, dom_builtins. exact Hk.
  - intros n c Hn. rewrite Hreg in Hn.
    destruct (last_named n children).
    + injection Hn as <-. exact I.
    + apply (builtins_quiet k n), Hn.
Qed.

End Resolution.

(** ** The syntax tree builder *)

Section BuilderProperties.
Context `{H : Host}.

Lemma as_statements_map (body : list stmt) :
  as_statements (map CStatement body) = Some body.
Proof.
  induction body as [|s body IH]; [reflexivity|].
  simpl. rewrite IH. reflexivity.
Qed.

(** X14: [visit_function] takes the second child for the parameter list
    only when there are more than two children.  A declaration without
    parameters, and one with parameters and a non-empty body, are built
    as written; a declaration with parameters and an empty body is built
    without parameters and with the [ParamList] as its only statement. *)
Theorem visit_function_parameters n ps (body : list stmt) :
  built_Function (CText n :: map CStatement body)
  = Some {| name := n; params := None; statements := body |}
  ∧ (body ≠ [] →
     built_Function (CText n :: CParamList ps :: map CStatement body)
     = Some {| name := n; params := Some ps; statements := body |})
  ∧ visit_function [CText n; CParamList ps]
    = Ok {| built_name := CText n; built_params := None;
            built_statements := [CParamList ps] |}
  ∧ built_Function [CText n; CParamList ps] = None.
Proof.
  split; [|split; [|split; reflexivity]].
  - unfold built_Function, visit_function.
    destruct body as [|s body]; [reflexivity|].
    change (map CStatement (s :: body))
      with (CStatement s :: map CStatement body).
    rewrite andb_false_r. unfold as_Function. cbn [built_name built_statements built_params].
    rewrite <- (map_cons CStatement), as_statements_map. reflexivity.
  - intros Hbody. destruct body as [|s body]; [congruence|].
    unfold built_Function, visit_function, as_Function. simpl.
    rewrite as_statements_map. reflexivity.
Qed.

End BuilderProperties.

Lemma visit_function_parameters_witness :
  [Expression (Identifier "$n")] ≠ []
  ∧ built_Function [ CText "f"; CParamList ["$n"];
                     CStatement (Expression (Identifier "$n")) ]
    = Some {| name := "f"; params := Some ["$n"];
              statements := [Expression (Identifier "$n")] |}.
Proof.
  split; [discriminate|].
  apply (proj1 (proj2 (visit_function_parameters "f" ["$n"]
                         [Expression (Identifier "$n")]))).
  discriminate.
Defined.

(** ** Instances *)

Lemma return_arguments_witness :
  truthy (return_value frame0) = false
  ∧ evaluate builtins (run 1 builtins) (FunctionCall "return" None) frame0
    = (Fail (Raise TypeError), frame0).
Proof.
  split; [reflexivity|].
  exact (proj1 (return_arguments builtins (run 1 builtins) frame0 eq_refl)).
Defined.

Lemma assignment_binds_witness :
  (truthy (return_value frame0) = false
   ∧ evaluate builtins (run 1 builtins) (Literal (VInt 1)) frame0
     = (Ok (VInt 1), frame0))
  ∧ evaluate_stmt builtins (run 1 builtins)
      (Assignment "$x" (Literal (VInt 1))) frame0
    = (Ok tt, frame_x)
  ∧ evaluate builtins (run 1 builtins) (Identifier "$x") frame_x
    = (Ok (VInt 1), frame_x).
Proof.
  pose proof (assignment_binds builtins (run 1 builtins) "$x"
                (Literal (VInt 1)) frame0 (VInt 1) frame0 eq_refl eq_refl)
    as [Hset [Hget _]].
  split; [split; reflexivity|]. split; [exact Hset|exact (Hget eq_refl)].
Defined.

Lemma not_not_truth_witness :
  (builtins !! "not" = Some (Callable znot)
   ∧ truthy (return_value frame0) = false
   ∧ evaluate builtins (run 1 builtins) (Literal (VInt 3)) frame0
     = (Ok (VInt 3), frame0))
  ∧ evaluate builtins (run 1 builtins)
      (call "not" [call "not" [Literal (VInt 3)]]) frame0
    = (Ok (VBool true), frame0).
Proof.
  split; [repeat split|].
  exact (not_not_truth 0 builtins (Literal (VInt 3)) frame0 (VInt 3) frame0
           eq_refl eq_refl eq_refl).
Defined.

Lemma zget_line_witness :
  stdin w_abc = ["abc"]
  ∧ ∃ v, zget [] w_abc = (Ok v, w0) ∧ v = VStr "abc".
Proof.
  split; [reflexivity|].
  destruct (proj2 (zget_line [] w_abc) "abc" [] eq_refl)
    as [v [Hget [_ [Hint _]]]].
  exists v. split; [exact Hget|]. exact (Hint eq_refl).
Defined.

Lemma arity_mismatch_reported_witness :
  (params fn_greet = Some ["$who"]
   ∧ length [VStr "a"; VStr "b"] ≠ length ["$who"])
  ∧ run 1 builtins (User fn_greet) (Some [VStr "a"; VStr "b"]) w0
    = (Fail (Exit "Incorrect number of arguments to function greet"), w0).
Proof.
  assert (length [@VStr int_host "a"; VStr "b"] ≠ length ["$who"]) as Hlen
    by discriminate.
  split; [split; [reflexivity|exact Hlen]|].
  exact (arity_mismatch_reported 0 builtins fn_greet ["$who"] (VStr "a")
           [VStr "b"] w0 eq_refl Hlen).
Defined.

Lemma parameters_bound_witness :
  (params fn_greet = Some ["$who"] ∧ length [VStr "z"] = length ["$who"])
  ∧ ∃ vars,
      dom vars = list_to_set ["$who"]
      ∧ vars !! "$who" = Some (VStr "z")
      ∧ run 2 builtins (User fn_greet) (Some [VStr "z"]) w0
        = match run_statements builtins (run 1 builtins) (statements fn_greet)
                  {| local := vars; return_value := VNone; io := w0 |} with
          | (Ok _, st') => (Ok (return_value st'), io st')
          | (Fail f, st') => (Fail f, io st')
          end.
Proof.
  split; [split; reflexivity|].
  destruct (parameters_bound 1 builtins fn_greet ["$who"] (VStr "z") [] w0
              eq_refl eq_refl) as [vars [Hdom [Hget Hrun]]].
  exists vars. split; [exact Hdom|]. split; [|exact Hrun].
  apply (Hget 0%nat "$who" (VStr "z") eq_refl eq_refl).
  apply not_elem_of_nil.
Defined.

Lemma failure_ends_invocation_witness :
  run 2 builtins (User fn_stops) None w0
  = (Fail (Exit "Undefined variable $y"), {| stdin := []; stdout := "a" |}).
Proof.
  exact (proj1 (failure_ends_invocation 1 builtins fn_stops None w0 ∅
                  [ Expression (call "print" [Literal (VStr "a")]) ]
                  [ Expression (call "print" [Literal (VStr "b")]) ]
                  (Expression (Identifier "$y"))
                  {| local := ∅; return_value := VNone;
                     io := {| stdin := []; stdout := "a" |} |}
                  (Exit "Undefined variable $y")
                  {| local := ∅; return_value := VNone;
                     io := {| stdin := []; stdout := "a" |} |}
                  eq_refl eq_refl eq_refl eq_refl eq_refl)).
Defined.

Lemma undefined_function_witness :
  ("foo" ≠ "return"
   ∧ ("foo" ∉ ({["add"; "get"; "not"; "print"]} : gset string))
   ∧ ("foo" ∉ declared prog_no_main)
   ∧ truthy (return_value frame0) = false)
  ∧ evaluate (visit_loop builtins prog_no_main).2 (run 1 builtins)
      (FunctionCall "foo" None) frame0
    = (Fail (Exit "Undefined function foo"), frame0).
Proof.
  assert ("foo" ≠ "return") as H1 by discriminate.
  assert ("foo" ∉ ({["add"; "get"; "not"; "print"]} : gset string)) as H2.
  { rewrite !not_elem_of_union, !not_elem_of_singleton.
    repeat split; discriminate. }
  assert ("foo" ∉ declared prog_no_main) as H3.
  { unfold declared. rewrite elem_of_list_to_set.
    intros Hin%list_elem_of_singleton. discriminate. }
  split; [repeat split; assumption|].
  exact (undefined_function prog_no_main (run 1 builtins) "foo" None frame0
           H1 H2 H3 eq_refl).
Defined.

Lemma registered_never_undefined_witness :
  "print" ∈ ({["add"; "get"; "not"; "print"]} : gset string)
            ∪ declared prog_falsy_return
  ∧ (main 2 prog_falsy_return w0).1 ≠ Fail (Exit "Undefined function print").
Proof.
  assert ("print" ∈ ({["add"; "get"; "not"; "print"]} : gset string)
                    ∪ declared prog_falsy_return) as Hin.
  { apply elem_of_union_l. rewrite !elem_of_union, !elem_of_singleton. auto. }
  split; [exact Hin|].
  exact (registered_never_undefined 2 prog_falsy_return w0 "print" Hin).
Defined.
